(** * db-plumbing-mongo: the patch translator, the index registry and the
      bulk sequencer of [store.js]

    A shallow embedding of [IndexMap] and [Store] and the properties of
    their specification.  JavaScript objects that the code uses as maps
    from property names to values are finite maps or association lists over
    their own properties; a promise is a state transformer on the backing
    collection together with the way it settles. *)

From stdpp Require Import gmap strings list fin_maps pretty.

Set Warnings "-register-all,-clear-no-such-hyp".
Local Open Scope string_scope.
Local Open Scope list_scope.

(** ** Plain data and typed-patch operations *)

(** Field data carried by entities, documents and patches. *)
Inductive Value :=
| VUndefined
| VNull
| VBool (b : bool)
| VNum (n : Z)
| VStr (s : string)
| VObj (fields : list (string * Value)).

(** The operations of the patch library that the store dispatches on:
    [Operations.Rpl], the constant [Operations.DEL], [Operations.Mrg] and
    [Operations.Ins], a subclass of [Rpl].  [Mrg] holds an object from field
    names to operations, listed in [for ... in] order. *)
Inductive Op :=
| Rpl (data : Value)
| DEL
| Mrg (data : list (string * Op))
| Ins (data : Value).

(** What [op.data] reads: the fields of a [Mrg], the payload of a [Rpl] or an
    [Ins], and [undefined] on [DEL], which carries nothing. *)
Inductive Data :=
| DataFields (diff : list (string * Op))
| DataValue (v : Value).

Definition data_of (op : Op) : Data :=
  match op with
  | Rpl v => DataValue v
  | DEL => DataValue VUndefined
  | Mrg d => DataFields d
  | Ins v => DataValue v
  end.

Inductive Error :=
| TypeError                         (* property read on [undefined] *)
| RangeError                        (* call stack exhausted *)
| UnsupportedIndex (name : string)  (* 'mongo does not understand index ' + name *)
| UnsupportedPatchShape (op : Op)   (* 'Unkown diff operation ' + op *)
| DoesNotExist (_id : Value)
| BackendFailure (reason : string).

Inductive Result (A : Type) :=
| Ok (a : A)
| Throw (e : Error).
Arguments Ok {A} a.
Arguments Throw {A} e.

(** [obj[key]] on an object given by its own properties. *)
Fixpoint get {A : Type} (key : string) (obj : list (string * A)) : option A :=
  match obj with
  | [] => None
  | (k, v) :: rest => if String.eqb k key then Some v else get key rest
  end.

(** Nesting depth of merges, the bound on the recursion of the translator. *)
Fixpoint op_depth (op : Op) : nat :=
  match op with
  | Mrg d => S (foldr Nat.max 0 (map (fun kv => op_depth (snd kv)) d))
  | _ => 0
  end.

Definition diff_depth (diff : list (string * Op)) : nat :=
  foldr Nat.max 0 (map (fun kv => op_depth (snd kv)) diff).

(** ** The diff translator *)

(** The object [{ $set: {}, $unset: {} }] that [_diffToMongo] fills. *)
Record Mongo := { acc_set : gmap string Value; acc_unset : gmap string Value }.

(** The update command [diffToMongo] returns: a group is absent once
    [delete mongo.$set] or [delete mongo.$unset] has run. *)
Record Command := { cmd_set : option (gmap string Value);
                    cmd_unset : option (gmap string Value) }.

(** [mongo.$set[path] = v].  The name [__proto__] is the accessor every
    object inherits: an assignment to it goes to the prototype and leaves the
    group without a property of that name. *)
Definition assign_set (mongo : Mongo) (path : string) (v : Value) : Mongo :=
  if decide (path = "__proto__") then mongo
  else {| acc_set := <[path := v]> (acc_set mongo); acc_unset := acc_unset mongo |}.

(** [mongo.$unset[path] = v], likewise. *)
Definition assign_unset (mongo : Mongo) (path : string) (v : Value) : Mongo :=
  if decide (path = "__proto__") then mongo
  else {| acc_set := acc_set mongo; acc_unset := <[path := v]> (acc_unset mongo) |}.

(** The data of a field that [property instanceof Operations.Rpl] lets
    through: that of an [Rpl] and that of an [Ins]. *)
Definition set_data (property : Op) : option Value :=
  match property with
  | Rpl d => Some d
  | Ins d => Some d
  | _ => None
  end.

(** The two [delete] statements that close [diffToMongo]. *)
Definition drop_empty_groups (mongo : Mongo) : Command :=
  {| cmd_set := if decide (size (acc_set mongo) = 0) then None else Some (acc_set mongo);
     cmd_unset := if decide (size (acc_unset mongo) = 0) then None else Some (acc_unset mongo) |}.

(** [Store.diffToMongo(v)] on plain data: no property of [v] is an operation,
    so the loop takes no branch and both empty groups are deleted. *)
Definition diffToMongo_value (v : Value) : Result Command :=
  Ok {| cmd_set := None; cmd_unset := None |}.

Section Translator.

(** [String(op)] as the patch library renders an operation; it is what
    [diff[property]] and [context + property] coerce [property] with. *)
Variable op_toString : Op -> string.

(** The body of [for (let name in diff)], with [rest] the fields still to
    visit and [diffToMongo] the function the [Mrg] branch calls. *)
Fixpoint _diffToMongo_loop (diffToMongo : list (string * Op) -> Result Command)
    (diff rest : list (string * Op)) (mongo : Mongo) (context : string)
    : Result Mongo :=
  match rest with
  | [] => Ok mongo
  | (name, property) :: rest' =>
      match property with
      | Rpl d =>
          _diffToMongo_loop diffToMongo diff rest'
            (assign_set mongo (context +:+ name) d) context
      | DEL =>
          _diffToMongo_loop diffToMongo diff rest'
            (assign_unset mongo (context +:+ name) (VStr EmptyString)) context
      | Mrg _ =>
          (* Store.diffToMongo(diff[property].data, mongo, context + property + '.'):
             the second and third argument are ignored by the callee and
             its result is dropped *)
          match get (op_toString property) diff with
          | None => Throw TypeError
          | Some target =>
              match
                match data_of target with
                | DataFields sub => diffToMongo sub
                | DataValue v => diffToMongo_value v
                end
              with
              | Throw e => Throw e
              | Ok _ => _diffToMongo_loop diffToMongo diff rest' mongo context
              end
          end
      | Ins d =>
          (* an Ins is an instance of Rpl: the first test holds *)
          _diffToMongo_loop diffToMongo diff rest'
            (assign_set mongo (context +:+ name) d) context
      end
  end.

Definition _diffToMongo (diffToMongo : list (string * Op) -> Result Command)
    (diff : list (string * Op)) (mongo : Mongo) (context : string) : Result Mongo :=
  _diffToMongo_loop diffToMongo diff diff mongo context.

(** [diffToMongo] with [stack] frames left for nested calls. *)
Fixpoint diffToMongo_at (stack : nat) (diff : list (string * Op)) : Result Command :=
  match stack with
  | O => Throw RangeError
  | S stack' =>
      match _diffToMongo (diffToMongo_at stack') diff
              {| acc_set := ∅; acc_unset := ∅ |} EmptyString with
      | Throw e => Throw e
      | Ok mongo => Ok (drop_empty_groups mongo)
      end
  end.

Definition diffToMongo (diff : list (string * Op)) : Result Command :=
  diffToMongo_at (S (diff_depth diff)) diff.

End Translator.

(** ** The index registry *)

(** An index is a named function [(value, item) => boolean]; the registry
    reads nothing but its name. *)
Record Predicate := { name : string }.

(** [this.maps], an object used as a map, by its own properties: from the
    name of an index to the function that builds the query for a value. *)
Record IndexMap := { maps : gmap string (Value -> Value) }.

Definition new_IndexMap : IndexMap := {| maps := ∅ |}.

(** A method call on a registry: what it returns and the receiver as the
    call leaves it. *)
Record Called (A : Type) := { returned : A; receiver : IndexMap }.
Arguments returned {A} c.
Arguments receiver {A} c.

(** The query function stored by [addSimpleField]:
    [value => Object.defineProperty({}, name, {value, enumerable: true, ...})]. *)
Definition simple_field (field : string) : Value -> Value :=
  fun value => VObj [(field, value)].

(** [addSimpleField(index, name)]: assigns [this.maps[index.name]] and
    returns [this]. *)
Definition addSimpleField (index : Predicate) (field : string) (this : IndexMap)
    : Called IndexMap :=
  let this := {| maps := <[name index := simple_field field]> (maps this) |} in
  {| returned := this; receiver := this |}.

(** The own enumerable properties of [new String(s)]: its characters under
    their positions. *)
Fixpoint chars_from (i : nat) (s : string) : list (string * Value) :=
  match s with
  | EmptyString => []
  | String c s' => (pretty i, VStr (String c EmptyString)) :: chars_from (S i) s'
  end.

(** [Object(value)], by its own enumerable properties: an object is itself,
    a string is wrapped with its characters, anything else gives an object
    without properties. *)
Definition to_object (value : Value) : Value :=
  match value with
  | VObj fields => VObj fields
  | VStr s => VObj (chars_from 0 s)
  | _ => VObj []
  end.

(** What [this.maps] inherits, being made by [{}]: the properties of
    [Object.prototype], each with what [map(value)] comes to when it is
    called as [toMongoCriteria] calls it, without a receiver.
    [Object.prototype.toString] names the missing receiver, [constructor] is
    [Object], [isPrototypeOf] answers [false] for what is not an object
    before it looks at its receiver, [__proto__] reads the prototype, which
    is no function, and the others fail on the missing receiver. *)
Definition Object_prototype (name : string) : option (Value -> Result Value) :=
  if String.eqb name "toString" then Some (fun _ => Ok (VStr "[object Undefined]"))
  else if String.eqb name "constructor" then Some (fun value => Ok (to_object value))
  else if String.eqb name "isPrototypeOf" then
    Some (fun value =>
            match value with
            | VObj _ => Throw TypeError
            | _ => Ok (VBool false)
            end)
  else if String.eqb name "toLocaleString" || String.eqb name "valueOf"
          || String.eqb name "hasOwnProperty" || String.eqb name "propertyIsEnumerable"
          || String.eqb name "__defineGetter__" || String.eqb name "__defineSetter__"
          || String.eqb name "__lookupGetter__" || String.eqb name "__lookupSetter__"
          || String.eqb name "__proto__"
  then Some (fun _ => Throw TypeError)
  else None.

(** [toMongoCriteria(index, value)]: [this.maps[index.name]] is the function
    added under the name, or else what the object inherits under it, and is
    [undefined] only when there is neither. *)
Definition toMongoCriteria (this : IndexMap) (index : Predicate) (value : Value)
    : Result Value :=
  match maps this !! name index with
  | Some map => Ok (map value)
  | None =>
      match Object_prototype (name index) with
      | Some map => map value
      | None => Throw (UnsupportedIndex (name index))
      end
  end.

(** ** The backing collection *)

(** The second argument of [updateOne]: a whole document, as [update] sends,
    or the command built by [diffToMongo]. *)
Inductive Update :=
| Replace (doc : Value)
| Modify (mongo : Command).

(** The calls the store makes on a collection. *)
Inductive Request :=
| FindOne (_id : Value)                                  (* findOne({_id}) *)
| Find (criteria : Value)                                (* find(criteria).toArray() *)
| UpdateOne (_id : Value) (update : Update) (upsert : bool)
| Remove (criteria : Value)                              (* remove(criteria, {w: 1}) *)
| DeleteMany (ids : list Value)                          (* deleteMany({_id: {$in: ids}}) *)
| InsertMany (items : list Value).

Definition answer (r : Request) : Type :=
  match r with
  | FindOne _ => option Value
  | Find _ => list Value
  | _ => unit
  end.

Inductive Reply (A : Type) :=
| Ack (a : A)
| Nack (reason : string).
Arguments Ack {A} a.
Arguments Nack {A} reason.

(** A collection is anything that serves the requests, changing its state
    and either answering or failing. *)
Class Backend (Coll : Type) :=
  { serve : forall r : Request, Coll -> Coll * Reply (answer r) }.

(** ** Promises *)

(** How a promise settles. *)
Inductive Settled (A : Type) :=
| Fulfilled (a : A)
| Rejected (e : Error).
Arguments Fulfilled {A} a.
Arguments Rejected {A} e.

(** How a method call ends once the job queue has drained: its promise was
    fulfilled or rejected, or the call itself threw. *)
Inductive Outcome (A : Type) :=
| Resolved (a : A)
| RejectedWith (e : Error)
| Thrown (e : Error).
Arguments Resolved {A} a.
Arguments RejectedWith {A} e.
Arguments Thrown {A} e.

Section Promises.

Context {Coll : Type} `{Backend Coll}.

(** The collection and the requests sent to it so far, each with whether it
    was acknowledged. *)
Record World := { coll : Coll; sent : list (Request * bool) }.

(** A promise, run to the point where it settles. *)
Definition Promise (A : Type) : Type := World -> World * Settled A.

Definition resolve {A} (a : A) : Promise A := fun w => (w, Fulfilled a).
Definition reject {A} (e : Error) : Promise A := fun w => (w, Rejected e).

(** [p.then(f)]: [f] runs once [p] is fulfilled, and not at all when [p]
    is rejected. *)
Definition then_ {A B} (p : Promise A) (f : A -> Promise B) : Promise B :=
  fun w =>
    match p w with
    | (w', Fulfilled a) => f a w'
    | (w', Rejected e) => (w', Rejected e)
    end.

(** A reaction that throws rejects the promise [then] returned. *)
Definition attempt {A} (r : Result (Promise A)) : Promise A :=
  match r with
  | Ok p => p
  | Throw e => reject e
  end.

(** [this.collection.then(collection => collection.<r>)]. *)
Definition call (r : Request) : Promise (answer r) :=
  fun w =>
    match serve r (coll w) with
    | (c, Ack a) => ({| coll := c; sent := sent w ++ [(r, true)] |}, Fulfilled a)
    | (c, Nack reason) =>
        ({| coll := c; sent := sent w ++ [(r, false)] |},
         Rejected (BackendFailure reason))
    end.

(** How a method call ends: it returns a promise, or it throws while the
    reactions it had already chained on a fulfilled promise are queued; once
    the caller has handled the exception the job queue runs them. *)
Inductive Call (A : Type) :=
| Returns (p : Promise A)
| Throws (e : Error) (pending : Promise unit).
Arguments Returns {A} p.
Arguments Throws {A} e pending.

(** The call and every job it left behind, run until nothing is pending. *)
Definition run {A} (c : Call A) (w : World) : World * Outcome A :=
  match c with
  | Returns p =>
      match p w with
      | (w', Fulfilled a) => (w', Resolved a)
      | (w', Rejected e) => (w', RejectedWith e)
      end
  | Throws e pending => (fst (pending w), Thrown e)
  end.

End Promises.

Arguments World Coll : clear implicits.
Arguments Promise Coll A : clear implicits.
Arguments Call Coll A : clear implicits.
Arguments Returns {Coll A} p.
Arguments Throws {Coll A} e pending.

(** ** The store *)

(** [value.name] on plain data: [undefined] when there is no such field. *)
Definition prop (field : string) (v : Value) : Value :=
  match v with
  | VObj fields => default VUndefined (get field fields)
  | _ => VUndefined
  end.

(** [obj[key] = v] on the own properties of an object: an existing property
    keeps its place, a new one goes last. *)
Fixpoint put {A : Type} (key : string) (v : A) (obj : list (string * A))
    : list (string * A) :=
  match obj with
  | [] => [(key, v)]
  | (k, old) :: rest =>
      if String.eqb k key then (k, v) :: rest else (k, old) :: put key v rest
  end.

(** The extraction functions a store is built with. *)
Record Options :=
  { key : Value -> Value;             (* how to find a key from a value *)
    value : Value -> Value;           (* how to map an entry to a value *)
    entry : Value -> Value -> Value   (* how to make a key/value pair an entry *) }.

Definition DEFAULT_OPTIONS : Options :=
  {| key := fun value => prop "uid" value;
     value := fun entry => entry;
     (* Object.assign({}, data, {_id}) *)
     entry := fun _id data =>
       match data with
       | VObj fields => VObj (put "_id" _id fields)
       | _ => VObj [("_id", _id)]
       end |}.

(** [this.type.fromJSON], [this.indexes] and [this.options]; the collection
    is the state the promises run on. *)
Record Store :=
  { fromJSON : Value -> Value;
    indexes : IndexMap;
    options : Options }.

Section Facade.

Context {Coll : Type} `{Backend Coll}.
Variable op_toString : Op -> string.
Variable this : Store.

Definition find (_id : Value) : Call Coll Value :=
  Returns
    (then_ (call (FindOne _id))
       (fun item =>
          match item with
          | None => reject (DoesNotExist _id)
          | Some item => resolve (fromJSON this (value (options this) item))
          end)).

Definition findAll (index : Predicate) (v : Value) : Call Coll (list Value) :=
  match toMongoCriteria (indexes this) index v with
  | Throw e => Throws e (resolve tt)
  | Ok mongo_criteria =>
      Returns
        (then_ (call (Find mongo_criteria))
           (fun items =>
              resolve (map (fun item => fromJSON this (value (options this) item)) items)))
  end.

Definition update (object : Value) : Call Coll unit :=
  let _id := key (options this) object in
  Returns (call (UpdateOne _id (Replace (entry (options this) _id object)) true)).

Definition removeAll (index : Predicate) (v : Value) : Call Coll unit :=
  Returns
    (attempt
       match toMongoCriteria (indexes this) index v with
       | Throw e => Throw e
       | Ok criteria => Ok (call (Remove criteria))
       end).

(** [diffToMongo(diff.data)] for the operation an entry of the patch holds. *)
Definition diffToMongo_data (diff : Op) : Result Command :=
  match data_of diff with
  | DataFields d => diffToMongo op_toString d
  | DataValue v => diffToMongo_value v
  end.

Definition _updateFromDiff (_id : Value) (diff : Op) : Promise Coll unit :=
  attempt
    match diffToMongo_data diff with
    | Throw e => Throw e
    | Ok mongoQuery => Ok (call (UpdateOne _id (Modify mongoQuery) false))
    end.

Definition _bulkRemove (ids : list Value) : Promise Coll unit :=
  call (DeleteMany ids).

Definition _bulkInsert (items : list Value) : Promise Coll unit :=
  call (InsertMany items).

(** The loop of [bulk] over the entries of [patch.data], with the arrays
    [deletes] and [inserts] and the promise [updates] as they stand.  It
    ends with the three of them, or with the exception of the last branch
    and the promise [updates] as chained up to there. *)
Fixpoint bulk_loop (entries : list (Value * Op)) (deletes inserts : list Value)
    (updates : Promise Coll unit)
    : Promise Coll unit * Result (list Value * list Value) :=
  match entries with
  | [] => (updates, Ok (deletes, inserts))
  | (key, op) :: rest =>
      match op with
      | Mrg _ =>
          bulk_loop rest deletes inserts
            (then_ updates (fun _ => _updateFromDiff key op))
      | Ins d => bulk_loop rest deletes (inserts ++ [fromJSON this d]) updates
      | DEL => bulk_loop rest (deletes ++ [key]) inserts updates
      | Rpl _ => (updates, Throw (UnsupportedPatchShape op))
      end
  end.

Definition bulk (patch : list (Value * Op)) : Call Coll unit :=
  match bulk_loop patch [] [] (resolve tt) with
  | (updates, Throw e) => Throws e updates
  | (updates, Ok (deletes, inserts)) =>
      let operation := updates in
      let operation :=
        if decide (0 < length inserts)
        then then_ operation (fun _ => _bulkInsert inserts) else operation in
      let operation :=
        if decide (0 < length deletes)
        then then_ operation (fun _ => _bulkRemove deletes) else operation in
      Returns operation
  end.

End Facade.

(** ** A collection held in memory

    The database is not part of the repository.  This is the behaviour the
    store relies on, for the requests it sends: documents in insertion
    order, found by their [_id]. *)

Fixpoint value_eqb (a b : Value) : bool :=
  match a, b with
  | VUndefined, VUndefined => true
  | VNull, VNull => true
  | VBool x, VBool y => Bool.eqb x y
  | VNum x, VNum y => Z.eqb x y
  | VStr x, VStr y => String.eqb x y
  | VObj fa, VObj fb =>
      (fix fields_eqb (la lb : list (string * Value)) : bool :=
         match la, lb with
         | [], [] => true
         | (ka, va) :: la', (kb, vb) :: lb' =>
             String.eqb ka kb && value_eqb va vb && fields_eqb la' lb'
         | _, _ => false
         end) fa fb
  | _, _ => false
  end.

Module Mem.

Record Coll := { docs : list Value; oids : nat }.

Definition empty : Coll := {| docs := []; oids := 0 |}.

Definition doc_id (doc : Value) : Value := prop "_id" doc.

Definition has_id (_id : Value) (doc : Value) : bool := value_eqb (doc_id doc) _id.

Definition with_id (_id : Value) (doc : Value) : Value :=
  match doc with
  | VObj fields => VObj (put "_id" _id fields)
  | _ => VObj [("_id", _id)]
  end.

(** Equality criteria: every field of the query equals the document's. *)
Definition matches (criteria : Value) (doc : Value) : bool :=
  match criteria with
  | VObj fields => forallb (fun kv => value_eqb (prop (fst kv) doc) (snd kv)) fields
  | _ => true
  end.

(** The document with [_id] replaced by [doc], where it stands. *)
Fixpoint replace_doc (_id : Value) (doc : Value) (l : list Value) : list Value :=
  match l with
  | [] => []
  | d :: rest => if has_id _id d then doc :: rest else d :: replace_doc _id doc rest
  end.

Fixpoint split_dots_from (cur : string) (s : string) : list string :=
  match s with
  | EmptyString => [cur]
  | String c s' =>
      if String.eqb (String c EmptyString) "." then cur :: split_dots_from EmptyString s'
      else split_dots_from (cur +:+ String c EmptyString) s'
  end.

Definition split_dots (path : string) : list string := split_dots_from EmptyString path.

Fixpoint remove_key {A : Type} (key : string) (obj : list (string * A))
    : list (string * A) :=
  match obj with
  | [] => []
  | (k, v) :: rest =>
      if String.eqb k key then remove_key key rest else (k, v) :: remove_key key rest
  end.

(** [$set] of one dotted path; it fails below a field that is not an object. *)
Fixpoint set_path (path : list string) (v : Value) (doc : Value) : option Value :=
  match path with
  | [] => Some v
  | seg :: path' =>
      match doc with
      | VObj fields =>
          match set_path path' v (default (VObj []) (get seg fields)) with
          | Some child => Some (VObj (put seg child fields))
          | None => None
          end
      | _ => None
      end
  end.

(** [$unset] of one dotted path; a path that leads nowhere changes nothing. *)
Fixpoint unset_path (path : list string) (doc : Value) : Value :=
  match path, doc with
  | [seg], VObj fields => VObj (remove_key seg fields)
  | seg :: path', VObj fields =>
      match get seg fields with
      | Some child => VObj (put seg (unset_path path' child) fields)
      | None => doc
      end
  | _, _ => doc
  end.

Definition apply_sets (sets : gmap string Value) (doc : Value) : option Value :=
  foldr (fun kv acc =>
           match acc with
           | Some d => set_path (split_dots (fst kv)) (snd kv) d
           | None => None
           end)
        (Some doc) (map_to_list sets).

Definition apply_unsets (unsets : gmap string Value) (doc : Value) : Value :=
  foldr (fun kv d => unset_path (split_dots (fst kv)) d) doc (map_to_list unsets).

Definition touches_id (group : option (gmap string Value)) : bool :=
  match group with
  | Some g => bool_decide (is_Some (g !! "_id"))
  | None => false
  end.

(** The document an update turns [old] into, or the reason it is refused:
    a document replaces [old] whole and may not change its [_id]; a command
    with neither group is an empty document; otherwise the paths of [$set]
    are assigned and those of [$unset] removed, and [_id] cannot be one
    of them. *)
Definition updated (_id : Value) (u : Update) (old : Value) : Value + string :=
  match u with
  | Replace doc =>
      if value_eqb (doc_id doc) VUndefined || value_eqb (doc_id doc) _id
      then inl (with_id _id doc)
      else inr "the _id field is immutable"
  | Modify mongo =>
      match cmd_set mongo, cmd_unset mongo with
      | None, None => inl (with_id _id (VObj []))
      | sets, unsets =>
          if touches_id sets || touches_id unsets
          then inr "the _id field is immutable"
          else
            match apply_sets (default ∅ sets) old with
            | Some d => inl (apply_unsets (default ∅ unsets) d)
            | None => inr "cannot create field"
            end
      end
  end.

Definition updateOne (_id : Value) (u : Update) (upsert : bool) (c : Coll)
    : Coll * Reply unit :=
  match List.find (has_id _id) (docs c) with
  | Some old =>
      match updated _id u old with
      | inl doc => ({| docs := replace_doc _id doc (docs c); oids := oids c |}, Ack tt)
      | inr reason => (c, Nack reason)
      end
  | None =>
      if upsert then
        match updated _id u (VObj [("_id", _id)]) with
        | inl doc => ({| docs := docs c ++ [doc]; oids := oids c |}, Ack tt)
        | inr reason => (c, Nack reason)
        end
      else (c, Ack tt)
  end.

(** Ordered insertion: a document without [_id] is given a fresh one, and
    the first duplicate [_id] stops the insertion where it stands. *)
Fixpoint insertMany (items : list Value) (c : Coll) : Coll * Reply unit :=
  match items with
  | [] => (c, Ack tt)
  | item :: rest =>
      if value_eqb (doc_id item) VUndefined then
        insertMany rest
          {| docs := docs c ++ [with_id (VStr ("oid" +:+ pretty (oids c))) item];
             oids := S (oids c) |}
      else if existsb (has_id (doc_id item)) (docs c) then (c, Nack "duplicate key")
      else insertMany rest {| docs := docs c ++ [item]; oids := oids c |}
  end.

Definition deleteMany (ids : list Value) (c : Coll) : Coll * Reply unit :=
  ({| docs := List.filter (fun d => negb (existsb (fun i => has_id i d) ids)) (docs c);
      oids := oids c |}, Ack tt).

Definition remove (criteria : Value) (c : Coll) : Coll * Reply unit :=
  ({| docs := List.filter (fun d => negb (matches criteria d)) (docs c);
      oids := oids c |}, Ack tt).

Definition serve_request (r : Request) : Coll -> Coll * Reply (answer r) :=
  match r return Coll -> Coll * Reply (answer r) with
  | FindOne _id => fun c => (c, Ack (List.find (has_id _id) (docs c)))
  | Find criteria => fun c => (c, Ack (List.filter (matches criteria) (docs c)))
  | UpdateOne _id u upsert => updateOne _id u upsert
  | Remove criteria => remove criteria
  | DeleteMany ids => deleteMany ids
  | InsertMany items => insertMany items
  end.

#[global] Instance backend : Backend Coll := {| serve := serve_request |}.

End Mem.

(** ** The order the specification gives to a batch

    The sequencer as the specification words it: the entries are classified
    up to the first one that is not supported, and the commands of the plan
    are sent one after the other, each only once the one before it has been
    acknowledged. *)

Inductive Step :=
| StepUpdate (key : Value) (diff : Op)
| StepInsert (items : list Value)
| StepDelete (ids : list Value).

Definition is_Mrg (op : Op) : bool :=
  match op with Mrg _ => true | _ => false end.

Definition supported (op : Op) : bool :=
  match op with Rpl _ => false | _ => true end.

(** The entries before the first unsupported one. *)
Fixpoint classified (patch : list (Value * Op)) : list (Value * Op) :=
  match patch with
  | [] => []
  | (k, op) :: rest => if supported op then (k, op) :: classified rest else []
  end.

Fixpoint first_unsupported (patch : list (Value * Op)) : option Op :=
  match patch with
  | [] => None
  | (k, op) :: rest => if supported op then first_unsupported rest else Some op
  end.

Definition merges (patch : list (Value * Op)) : list (Value * Op) :=
  List.filter (fun e => is_Mrg (snd e)) patch.

Definition delete_keys (patch : list (Value * Op)) : list Value :=
  omap (fun e => match snd e with DEL => Some (fst e) | _ => None end) patch.

Definition insert_items (this : Store) (patch : list (Value * Op)) : list Value :=
  omap (fun e => match snd e with Ins d => Some (fromJSON this d) | _ => None end) patch.

Definition update_steps (patch : list (Value * Op)) : list Step :=
  map (fun e => StepUpdate (fst e) (snd e)) (merges patch).

Definition insert_step (this : Store) (patch : list (Value * Op)) : list Step :=
  match insert_items this patch with [] => [] | items => [StepInsert items] end.

Definition delete_step (patch : list (Value * Op)) : list Step :=
  match delete_keys patch with [] => [] | ids => [StepDelete ids] end.

Definition plan (this : Store) (patch : list (Value * Op)) : list Step :=
  update_steps patch ++ insert_step this patch ++ delete_step patch.

Definition is_UpdateOne (r : Request) : bool :=
  match r with UpdateOne _ _ _ => true | _ => false end.

Section Sequence.

Context {Coll : Type} `{Backend Coll}.
Variable op_toString : Op -> string.

(** The command of a step; an update has one only if its merge translates. *)
Definition step_request (s : Step) : Result Request :=
  match s with
  | StepUpdate key diff =>
      match diffToMongo_data op_toString diff with
      | Throw e => Throw e
      | Ok mongo => Ok (UpdateOne key (Modify mongo) false)
      end
  | StepInsert items => Ok (InsertMany items)
  | StepDelete ids => Ok (DeleteMany ids)
  end.

Fixpoint in_sequence (steps : list Step) (w : World Coll) : World Coll * Settled unit :=
  match steps with
  | [] => (w, Fulfilled tt)
  | s :: rest =>
      match step_request s with
      | Throw e => (w, Rejected e)
      | Ok r =>
          match serve r (coll w) with
          | (c, Ack _) => in_sequence rest {| coll := c; sent := sent w ++ [(r, true)] |}
          | (c, Nack reason) =>
              ({| coll := c; sent := sent w ++ [(r, false)] |},
               Rejected (BackendFailure reason))
          end
      end
  end.

(** [f] once [r] is fulfilled, and not at all when it is rejected. *)
Definition and_then (r : World Coll * Settled unit)
    (f : World Coll -> World Coll * Settled unit) : World Coll * Settled unit :=
  match r with
  | (w, Fulfilled _) => f w
  | (w, Rejected e) => (w, Rejected e)
  end.

Definition settle {A} (r : World Coll * Settled A) : World Coll * Outcome A :=
  match r with
  | (w, Fulfilled a) => (w, Resolved a)
  | (w, Rejected e) => (w, RejectedWith e)
  end.

(** The collection after it has served the requests in turn. *)
Definition replay (requests : list Request) (c : Coll) : Coll :=
  foldl (fun c r => fst (serve r c)) c requests.

End Sequence.

(** The requests a sequence of steps sends, each with whether it was
    acknowledged, and the way the sequence settles: it stops at the first
    step that has no command or whose command is refused. *)
Inductive tracks (op_toString : Op -> string)
    : list Step -> list (Request * bool) -> Settled unit -> Prop :=
| tracks_done : tracks op_toString [] [] (Fulfilled tt)
| tracks_throw st rest e :
    step_request op_toString st = Throw e ->
    tracks op_toString (st :: rest) [] (Rejected e)
| tracks_nack st rest r reason :
    step_request op_toString st = Ok r ->
    tracks op_toString (st :: rest) [(r, false)] (Rejected (BackendFailure reason))
| tracks_ack st rest r evs s :
    step_request op_toString st = Ok r ->
    tracks op_toString rest evs s ->
    tracks op_toString (st :: rest) ((r, true) :: evs) s.

(** ** The store of the test suite *)

(** A rendering for the examples.  The patch library has one of its own,
    outside the repository; the theorems take the rendering as a parameter,
    and in the examples no field is named by the text of an operation under
    this one. *)
Definition object_toString : Op -> string := fun _ => "[object Object]".

(** [Simple.fromJSON({uid, a, b})]. *)
Definition Simple_fromJSON (json : Value) : Value :=
  VObj [("uid", prop "uid" json); ("a", prop "a" json); ("b", prop "b" json)].

Definition simple (uid : Z) (a b : string) : Value :=
  VObj [("uid", VNum uid); ("a", VStr a); ("b", VStr b)].

Definition byA : Predicate := {| name := "byA" |}.
Definition byB : Predicate := {| name := "byB" |}.

Definition INDEX_MAP : IndexMap := returned (addSimpleField byA "a" new_IndexMap).

Definition test_store : Store :=
  {| fromJSON := Simple_fromJSON; indexes := INDEX_MAP; options := DEFAULT_OPTIONS |}.

Definition fresh : World Mem.Coll := {| coll := Mem.empty; sent := [] |}.

(** The collection after [update] of the three entities of the tests. *)
Definition three_entities : World Mem.Coll :=
  let w1 := fst (run (update test_store (simple 1 "hello" "world")) fresh) in
  let w2 := fst (run (update test_store (simple 2 "hello" "friend")) w1) in
  let w3 := fst (run (update test_store (simple 3 "goodbye" "Mr. Chips")) w2) in
  {| coll := coll w3; sent := [] |}.

(** The batch of the bulk test, and batches that mix the variants. *)
Definition pizza_patch : list (Value * Op) :=
  [(VNum 1, Mrg [("b", Rpl (VStr "pizza"))])].

Definition sync_patch : list (Value * Op) :=
  [(VNum 2, Mrg [("a", DEL)]); (VNum 3, DEL); (VNum 4, Ins (simple 4 "so" "long"))].

Definition replace_patch : list (Value * Op) :=
  [(VNum 1, Mrg [("b", Rpl (VStr "pizza"))]); (VNum 2, Rpl (simple 2 "hello" "you"))].

Definition failing_patch : list (Value * Op) :=
  [(VNum 1, Mrg [("b", Rpl (VStr "pizza"))]);
   (VNum 2, Mrg [("_id", Rpl (VNum 9))]);
   (VNum 3, DEL)].

Definition pizza_command : Command :=
  {| cmd_set := Some {[ "b" := VStr "pizza" ]}; cmd_unset := None |}.

(** The requests [failing_patch] gets sent: the second sets [_id], which the
    collection refuses. *)
Definition failing_events : list (Request * bool) :=
  [(UpdateOne (VNum 1) (Modify pizza_command) false, true);
   (UpdateOne (VNum 2)
      (Modify {| cmd_set := Some {[ "_id" := VNum 9 ]}; cmd_unset := None |}) false,
    false)].

Definition mixed_diff : list (string * Op) :=
  [("b", Rpl (VStr "pizza")); ("a", DEL)].

Definition mixed_command : Command :=
  {| cmd_set := Some {[ "b" := VStr "pizza" ]};
     cmd_unset := Some {[ "a" := VStr EmptyString ]} |}.

(** ** The rest of the store *)

Section Reading.

Context {Coll : Type} `{Backend Coll}.
Variable this : Store.

(** [get all()]: [collection.find().toArray()], each item taken through
    [type.fromJSON(options.value(item))]; [find] gets no criteria. *)
Definition all : Call Coll (list Value) :=
  Returns
    (then_ (call (Find VUndefined))
       (fun items =>
          resolve (map (fun item => fromJSON this (value (options this) item)) items))).

End Reading.

(** A store that keeps the records as they are. *)
Definition plain_store : Store :=
  {| fromJSON := fun json => json; indexes := INDEX_MAP; options := DEFAULT_OPTIONS |}.

Definition nested_diff : list (string * Op) :=
  [("b", Rpl (VStr "pizza")); ("a", Mrg [("c", Rpl (VNum 1))])].

Definition nested_patch : list (Value * Op) :=
  [(VNum 1, Mrg [("b", Rpl (VStr "pizza"))]);
   (VNum 2, Mrg nested_diff);
   (VNum 3, DEL)].

(** Two batches with the same groups, the entries interleaved differently
    and the insert under another key. *)
Definition delete_first_patch : list (Value * Op) :=
  [(VNum 3, DEL); (VNum 3, Ins (simple 3 "hello" "again")); (VNum 1, Mrg [("a", DEL)])].

Definition delete_last_patch : list (Value * Op) :=
  [(VNum 1, Mrg [("a", DEL)]); (VNum 7, Ins (simple 3 "hello" "again")); (VNum 3, DEL)].

(** A batch whose insert repeats the [_id] of a stored document. *)
Definition duplicate_patch : list (Value * Op) :=
  [(VNum 2, Mrg [("b", Rpl (VStr "pizza"))]);
   (VNum 1, Ins (VObj [("_id", VNum 1); ("a", VStr "twice")]));
   (VNum 3, DEL)].

Definition duplicate_events : list (Request * bool) :=
  [(UpdateOne (VNum 2) (Modify pizza_command) false, true);
   (InsertMany [VObj [("_id", VNum 1); ("a", VStr "twice")]], false)].

(** A merge with an inserted field: [{c: Ins('x'), d: Rpl(2), a: DEL}]. *)
Definition inserted_diff : list (string * Op) :=
  [("c", Ins (VStr "x")); ("d", Rpl (VNum 2)); ("a", DEL)].

Definition inserted_command : Command :=
  {| cmd_set := Some (<[ "c" := VStr "x" ]> {[ "d" := VNum 2 ]});
     cmd_unset := Some {[ "a" := VStr EmptyString ]} |}.

Definition unset_a_command : Command :=
  {| cmd_set := None; cmd_unset := Some {[ "a" := VStr EmptyString ]} |}.

(** The requests [sync_patch] gets sent. *)
Definition sync_events : list (Request * bool) :=
  [(UpdateOne (VNum 2) (Modify unset_a_command) false, true);
   (InsertMany [simple 4 "so" "long"], true);
   (DeleteMany [VNum 3], true)].

(** * Properties *)

(** ** The translator *)

Section TranslatorFacts.

Variable op_toString : Op -> string.
Local Abbreviation loop := (_diffToMongo_loop op_toString).

Lemma get_elem_of {A : Type} (k : string) (obj : list (string * A)) (v : A) :
  get k obj = Some v → (k, v) ∈ obj.
Proof.
  induction obj as [|[k' v'] obj IH]; simpl; [done|].
  destruct (String.eqb_spec k' k) as [->|_].
  - intros [= ->]. left.
  - intros Hg. right. auto.
Qed.

Lemma elem_of_diff_depth (k : string) (sub : list (string * Op)) diff :
  (k, Mrg sub) ∈ diff → diff_depth sub < diff_depth diff.
Proof.
  unfold diff_depth at 2. induction diff as [|[k' p] diff IH]; simpl.
  - intros Hin. inversion Hin.
  - intros Hin. apply elem_of_cons in Hin as [[= <- <-]|Hin].
    + simpl. fold (diff_depth sub). lia.
    + specialize (IH Hin). lia.
Qed.

(** The loop only calls [diffToMongo] on the fields of merges held by
    [diff] itself. *)
Lemma loop_ext (rec1 rec2 : list (string * Op) → Result Command) diff :
  (∀ k sub, (k, Mrg sub) ∈ diff → rec1 sub = rec2 sub) →
  ∀ rest mongo context,
    loop rec1 diff rest mongo context = loop rec2 diff rest mongo context.
Proof.
  intros Hrec. induction rest as [|[n p] rest IH]; intros mongo context; simpl; [done|].
  destruct p as [d| |sub|d]; auto.
  destruct (get _ diff) as [target|] eqn:Hget; [|done].
  destruct target as [d'| |sub'|d']; simpl; auto.
  rewrite (Hrec _ sub' (get_elem_of _ _ _ Hget)).
  destruct (rec2 sub'); auto.
Qed.

Lemma diffToMongo_at_stable (stack : nat) :
  ∀ diff, diff_depth diff < stack →
    diffToMongo_at op_toString stack diff = diffToMongo op_toString diff.
Proof.
  unfold diffToMongo.
  induction stack as [stack IH] using lt_wf_ind. intros diff Hlt.
  destruct stack as [|stack]; [lia|]. simpl. unfold _diffToMongo.
  rewrite (loop_ext (diffToMongo_at op_toString stack)
             (diffToMongo_at op_toString (diff_depth diff)) diff); [done|].
  intros k sub Hin. apply elem_of_diff_depth in Hin.
  rewrite (IH stack) by lia. rewrite (IH (diff_depth diff)) by lia. done.
Qed.

Lemma loop_no_RangeError (rec : list (string * Op) → Result Command) diff :
  (∀ k sub, (k, Mrg sub) ∈ diff → rec sub ≠ Throw RangeError) →
  ∀ rest mongo context, loop rec diff rest mongo context ≠ Throw RangeError.
Proof.
  intros Hrec. induction rest as [|[n p] rest IH]; intros mongo context; simpl; [done|].
  destruct p as [d| |sub|d]; auto.
  destruct (get _ diff) as [target|] eqn:Hget; [|done].
  destruct target as [d'| |sub'|d']; simpl; auto.
  specialize (Hrec _ sub' (get_elem_of _ _ _ Hget)).
  destruct (rec sub') as [c|e]; [auto|congruence].
Qed.

(** The recursion always ends within the stack [diffToMongo] starts with. *)
Lemma diffToMongo_terminates diff : diffToMongo op_toString diff ≠ Throw RangeError.
Proof.
  remember (diff_depth diff) as n eqn:Hn. revert diff Hn.
  induction n as [n IH] using lt_wf_ind. intros diff ->.
  unfold diffToMongo. simpl. unfold _diffToMongo.
  pose proof (loop_no_RangeError (diffToMongo_at op_toString (diff_depth diff)) diff) as Hl.
  destruct (loop _ diff diff _ _) as [m|e] eqn:Hloop; [done|].
  intros [= ->]. eapply Hl; [|exact Hloop].
  intros k sub Hin. pose proof (elem_of_diff_depth _ _ _ Hin) as Hlt.
  rewrite diffToMongo_at_stable by lia. eapply IH; [exact Hlt|done].
Qed.

(** What the loop leaves in [$set]: what was there, and one path for each
    [Rpl] or [Ins] among the fields it visited, but for [__proto__]. *)
Lemma loop_set rec diff rest mongo context mongo' path :
  loop rec diff rest mongo context = Ok mongo' →
  is_Some (acc_set mongo' !! path) ↔
    is_Some (acc_set mongo !! path) ∨
    (path ≠ "__proto__" ∧
     ∃ n op d, (n, op) ∈ rest ∧ set_data op = Some d ∧ path = context +:+ n).
Proof.
  revert mongo. induction rest as [|[n p] rest IH]; intros mongo; simpl.
  - intros [= <-]. setoid_rewrite elem_of_nil. naive_solver.
  - destruct p as [d| |sub|d].
    + intros Hl. rewrite (IH _ Hl). unfold assign_set.
      case_decide as Hp; simpl; rewrite ?lookup_insert_is_Some';
        setoid_rewrite elem_of_cons; naive_solver.
    + intros Hl. rewrite (IH _ Hl). unfold assign_unset.
      case_decide as Hp; simpl; setoid_rewrite elem_of_cons; naive_solver.
    + destruct (get _ diff) as [target|]; [|done].
      destruct (match data_of target with DataFields s => rec s | DataValue v => _ end); [|done].
      intros Hl. rewrite (IH _ Hl). setoid_rewrite elem_of_cons. naive_solver.
    + intros Hl. rewrite (IH _ Hl). unfold assign_set.
      case_decide as Hp; simpl; rewrite ?lookup_insert_is_Some';
        setoid_rewrite elem_of_cons; naive_solver.
Qed.

Lemma loop_unset rec diff rest mongo context mongo' path :
  loop rec diff rest mongo context = Ok mongo' →
  is_Some (acc_unset mongo' !! path) ↔
    is_Some (acc_unset mongo !! path) ∨
    (path ≠ "__proto__" ∧ ∃ n, (n, DEL) ∈ rest ∧ path = context +:+ n).
Proof.
  revert mongo. induction rest as [|[n p] rest IH]; intros mongo; simpl.
  - intros [= <-]. setoid_rewrite elem_of_nil. naive_solver.
  - destruct p as [d| |sub|d].
    + intros Hl. rewrite (IH _ Hl). unfold assign_set.
      case_decide as Hp; simpl; setoid_rewrite elem_of_cons; naive_solver.
    + intros Hl. rewrite (IH _ Hl). unfold assign_unset.
      case_decide as Hp; simpl; rewrite ?lookup_insert_is_Some';
        setoid_rewrite elem_of_cons; naive_solver.
    + destruct (get _ diff) as [target|]; [|done].
      destruct (match data_of target with DataFields s => rec s | DataValue v => _ end); [|done].
      intros Hl. rewrite (IH _ Hl). setoid_rewrite elem_of_cons. naive_solver.
    + intros Hl. rewrite (IH _ Hl). unfold assign_set.
      case_decide as Hp; simpl; setoid_rewrite elem_of_cons; naive_solver.
Qed.

End TranslatorFacts.

(** Every path of the command is the name of a field of the patch itself:
    nothing below a nested merge reaches it. *)
Lemma diffToMongo_paths op_toString diff cmd :
  diffToMongo op_toString diff = Ok cmd →
  (∀ path, is_Some (default ∅ (cmd_set cmd) !! path)
           ↔ path ≠ "__proto__" ∧ ∃ op d, (path, op) ∈ diff ∧ set_data op = Some d) ∧
  (∀ path, is_Some (default ∅ (cmd_unset cmd) !! path)
           ↔ path ≠ "__proto__" ∧ (path, DEL) ∈ diff).
Proof.
  unfold diffToMongo. simpl. unfold _diffToMongo.
  destruct (_diffToMongo_loop _ _ diff diff _ _) as [m|e] eqn:Hloop; [|done].
  intros [= <-]. split; intros path; simpl.
  - pose proof (loop_set _ _ _ _ _ _ _ path Hloop) as Hs. simpl in Hs.
    assert (Hs' : is_Some (acc_set m !! path)
                  ↔ path ≠ "__proto__" ∧ ∃ op d, (path, op) ∈ diff ∧ set_data op = Some d).
    { rewrite Hs, lookup_empty. split.
      - intros [[? [=]]|(Hp & n & op & d & Hin & Hd & ->)]. split; [done|]. by exists op, d.
      - intros (Hp & op & d & Hin & Hd). right. split; [done|]. by exists path, op, d. }
    case_decide as Hsz; simpl; [|done].
    apply map_size_empty_iff in Hsz. by rewrite <- Hs', Hsz.
  - pose proof (loop_unset _ _ _ _ _ _ _ path Hloop) as Hs. simpl in Hs.
    assert (Hs' : is_Some (acc_unset m !! path) ↔ path ≠ "__proto__" ∧ (path, DEL) ∈ diff).
    { rewrite Hs, lookup_empty. split.
      - intros [[? [=]]|(Hp & n & Hin & ->)]. done.
      - intros [Hp Hin]. right. split; [done|]. by exists path. }
    case_decide as Hsz; simpl; [|done].
    apply map_size_empty_iff in Hsz. by rewrite <- Hs', Hsz.
Qed.

(** C5. The command holds a [$set] group only when some field makes a set
    instruction, an [Rpl] or an [Ins], and an [$unset] group only when some
    field is [DEL]: a group that is present is never empty, a group is absent
    only when no field feeds it but one named [__proto__], and the empty
    merge translates, without error, to the command with neither. *)
Theorem diffToMongo_omits_empty_groups (op_toString : Op → string) :
  diffToMongo op_toString [] = Ok {| cmd_set := None; cmd_unset := None |} ∧
  ∀ diff cmd,
    diffToMongo op_toString diff = Ok cmd →
    (∀ s, cmd_set cmd = Some s →
       s ≠ ∅ ∧ ∃ n op d, (n, op) ∈ diff ∧ set_data op = Some d ∧ is_Some (s !! n)) ∧
    (∀ u, cmd_unset cmd = Some u → u ≠ ∅ ∧ ∃ n, (n, DEL) ∈ diff ∧ is_Some (u !! n)) ∧
    (cmd_set cmd = None →
     ∀ n op d, (n, op) ∈ diff → set_data op = Some d → n = "__proto__") ∧
    (cmd_unset cmd = None → ∀ n, (n, DEL) ∈ diff → n = "__proto__").
Proof.
  split; [reflexivity|].
  intros diff cmd Hcmd.
  destruct (diffToMongo_paths _ _ _ Hcmd) as [Hset Hunset].
  assert (cmd_set cmd ≠ Some ∅ ∧ cmd_unset cmd ≠ Some ∅) as [Hsne Hune].
  { revert Hcmd. unfold diffToMongo. simpl.
    destruct (_diffToMongo _ _ _ _ _) as [m|e]; [|done]. intros [= <-].
    split; simpl; case_decide as Hsz; try done;
      intros [= Hm]; apply Hsz, map_size_empty_iff, Hm. }
  split_and!.
  - intros s Hs. assert (s ≠ ∅) as Hs0 by congruence. split; [done|].
    destruct (map_choose s Hs0) as (n & v & Hn).
    destruct (proj1 (Hset n)) as (_ & op & d & Hin & Hd); [rewrite Hs; by eexists|].
    exists n, op, d. split_and!; [done..|by eexists].
  - intros u Hu. assert (u ≠ ∅) as Hu0 by congruence. split; [done|].
    destruct (map_choose u Hu0) as (n & v & Hn).
    exists n. split; [apply Hunset; rewrite Hu|]; by eexists.
  - intros Hnone n op d Hin Hd.
    destruct (decide (n = "__proto__")) as [|Hp]; [done|].
    destruct (proj2 (Hset n)) as [v Hv]; [split; [done|by exists op, d]|].
    rewrite Hnone in Hv. simpl in Hv. by rewrite lookup_empty in Hv.
  - intros Hnone n Hin.
    destruct (decide (n = "__proto__")) as [|Hp]; [done|].
    destruct (proj2 (Hunset n)) as [v Hv]; [done|].
    rewrite Hnone in Hv. simpl in Hv. by rewrite lookup_empty in Hv.
Qed.

(** C1, on the patch [{a: Mrg({b: Rpl(1)})}].  The [Mrg] branch reads
    [diff[property]], the property of [diff] named by the text of the nested
    merge, and calls [diffToMongo] on it, which fills a command of its own:
    whatever the text is, the call throws or the result carries no group,
    and never the instruction to set ["a.b"]. *)
Theorem diffToMongo_nested_merge_lost (op_toString : Op → string) :
  diffToMongo op_toString [("a", Mrg [("b", Rpl (VNum 1))])]
    ≠ Ok {| cmd_set := Some {[ "a.b" := VNum 1 ]}; cmd_unset := None |} ∧
  diffToMongo op_toString [("a", Mrg [("b", Rpl (VNum 1))])]
    = if String.eqb "a" (op_toString (Mrg [("b", Rpl (VNum 1))]))
      then Ok {| cmd_set := None; cmd_unset := None |}
      else Throw TypeError.
Proof.
  cbv [diffToMongo diffToMongo_at _diffToMongo _diffToMongo_loop get data_of
       diff_depth op_depth foldr map snd Nat.max].
  destruct (String.eqb "a" _); split; done.
Qed.

(** ** The bulk sequencer *)

Lemma first_unsupported_None patch :
  Forall (λ e, supported (snd e) = true) patch →
  first_unsupported patch = None ∧ classified patch = patch.
Proof.
  induction 1 as [|[k op] patch Hop _ [IH1 IH2]]; simpl; [done|].
  simpl in Hop. rewrite Hop. by rewrite IH1, IH2.
Qed.

Lemma first_unsupported_Rpl patch k v :
  (k, Rpl v) ∈ patch →
  ∃ k' v', first_unsupported patch = Some (Rpl v') ∧ (k', Rpl v') ∈ patch.
Proof.
  induction patch as [|[k0 op] patch IH]; [intros Hin; inversion Hin|].
  intros Hin. simpl. destruct op as [d| |sub|d]; simpl.
  - exists k0, d. split; [done|left].
  - apply elem_of_cons in Hin as [[=]|Hin].
    destruct (IH Hin) as (k' & v' & ? & ?). exists k', v'. split; [done|by right].
  - apply elem_of_cons in Hin as [[=]|Hin].
    destruct (IH Hin) as (k' & v' & ? & ?). exists k', v'. split; [done|by right].
  - apply elem_of_cons in Hin as [[=]|Hin].
    destruct (IH Hin) as (k' & v' & ? & ?). exists k', v'. split; [done|by right].
Qed.

Section BulkFacts.

Context {Coll : Type} `{Backend Coll}.
Variable op_toString : Op → string.
Variable this : Store.

Local Abbreviation in_seq := (in_sequence op_toString).

Lemma in_sequence_app (s1 s2 : list Step) (w : World Coll) :
  in_seq (s1 ++ s2) w = and_then (in_seq s1 w) (in_seq s2).
Proof.
  revert w. induction s1 as [|st s1 IH]; intros w; simpl; [done|].
  destruct (step_request _ st) as [r|e]; [|done].
  destruct (serve r (coll w)) as [c [a|reason]]; [apply IH|done].
Qed.

Lemma _updateFromDiff_step key diff (w : World Coll) :
  _updateFromDiff op_toString key diff w = in_seq [StepUpdate key diff] w.
Proof.
  unfold _updateFromDiff. simpl.
  destruct (diffToMongo_data op_toString diff) as [mongo|e]; simpl; [|done].
  unfold call. destruct (serve _ (coll w)) as [c [[]|reason]]; done.
Qed.

Lemma and_then_assoc r (f g : World Coll → World Coll * Settled unit) :
  and_then (and_then r f) g = and_then r (λ w, and_then (f w) g).
Proof. by destruct r as [w [a|e]]. Qed.

(** The loop of [bulk]: the promise it leaves runs the updates of the merges
    classified so far after those it started with, and the arrays hold the
    keys and the items of the entries classified. *)
Lemma bulk_loop_spec entries :
  ∀ deletes inserts (updates : Promise Coll unit),
    (∀ w, fst (bulk_loop op_toString this entries deletes inserts updates) w
          = and_then (updates w) (in_seq (update_steps (classified entries)))) ∧
    snd (bulk_loop op_toString this entries deletes inserts updates)
    = match first_unsupported entries with
      | Some op => Throw (UnsupportedPatchShape op)
      | None => Ok (deletes ++ delete_keys entries, inserts ++ insert_items this entries)
      end.
Proof.
  induction entries as [|[k op] entries IH]; intros deletes inserts updates; simpl.
  - split; [|by rewrite !app_nil_r]. intros w. by destruct (updates w) as [w' [[]|e]].
  - destruct op as [d| |sub|d]; simpl.
    + split; [|done]. intros w. by destruct (updates w) as [w' [[]|e]].
    + destruct (IH (deletes ++ [k]) inserts updates) as [IH1 IH2]. split; [done|].
      rewrite IH2. destruct (first_unsupported entries); [done|].
      unfold delete_keys. simpl. by rewrite <- app_assoc.
    + destruct (IH deletes inserts
                  (then_ updates (λ _, _updateFromDiff op_toString k (Mrg sub))))
        as [IH1 IH2].
      split; [|done]. intros w. rewrite IH1.
      change (update_steps ((k, Mrg sub) :: classified entries))
        with ([StepUpdate k (Mrg sub)] ++ update_steps (classified entries)).
      unfold then_. destruct (updates w) as [w' [[]|e]]; [|done].
      rewrite _updateFromDiff_step. cbn [and_then].
      exact (eq_sym (in_sequence_app [StepUpdate k (Mrg sub)]
                       (update_steps (classified entries)) w')).
    + destruct (IH deletes (inserts ++ [fromJSON this d]) updates) as [IH1 IH2].
      split; [done|]. rewrite IH2. destruct (first_unsupported entries); [done|].
      unfold insert_items. simpl. by rewrite <- app_assoc.
Qed.

Lemma then_insert (p : Promise Coll unit) items w :
  (if decide (0 < length items)
   then then_ p (λ _, _bulkInsert items) else p) w
  = and_then (p w)
      (in_seq match items with [] => [] | _ => [StepInsert items] end).
Proof.
  destruct items as [|i items]; simpl.
  - by destruct (p w) as [w' [[]|e]].
  - unfold then_. destruct (p w) as [w' [[]|e]]; [|done].
    unfold _bulkInsert, call. simpl.
    by destruct (serve _ (coll w')) as [c [[]|reason]].
Qed.

Lemma then_remove (p : Promise Coll unit) ids w :
  (if decide (0 < length ids)
   then then_ p (λ _, _bulkRemove ids) else p) w
  = and_then (p w)
      (in_seq match ids with [] => [] | _ => [StepDelete ids] end).
Proof.
  destruct ids as [|i ids]; simpl.
  - by destruct (p w) as [w' [[]|e]].
  - unfold then_. destruct (p w) as [w' [[]|e]]; [|done].
    unfold _bulkRemove, call. simpl.
    by destruct (serve _ (coll w')) as [c [[]|reason]].
Qed.

(** What a call of [bulk] comes to once the job queue is empty. *)
Lemma run_bulk patch (w : World Coll) :
  run (bulk op_toString this patch) w
  = match first_unsupported patch with
    | Some op =>
        (fst (in_seq (update_steps (classified patch)) w),
         Thrown (UnsupportedPatchShape op))
    | None => settle (in_seq (plan this patch) w)
    end.
Proof.
  unfold bulk.
  destruct (bulk_loop_spec patch [] [] (resolve tt)) as [Hup Hres].
  destruct (bulk_loop _ _ patch [] [] _) as [updates res]. simpl in Hup, Hres.
  subst res. destruct (first_unsupported patch) as [op|] eqn:Hfirst.
  - simpl. by rewrite Hup.
  - assert (classified patch = patch) as Hall.
    { clear -Hfirst. induction patch as [|[k op] patch IH]; simpl in *; [done|].
      destruct (supported op); [by rewrite IH|done]. }
    rewrite Hall in Hup. simpl. rewrite then_remove, then_insert, Hup.
    unfold plan, insert_step, delete_step. rewrite in_sequence_app.
    unfold resolve. cbn [and_then]. rewrite and_then_assoc.
    destruct (in_seq (update_steps patch) w) as [w1 [[]|e]]; cbn [and_then]; [|done].
    rewrite in_sequence_app.
    by destruct (insert_items this patch), (delete_keys patch).
Qed.

Lemma in_sequence_tracks steps :
  ∀ w : World Coll, ∃ evs,
    sent (fst (in_seq steps w)) = sent w ++ evs ∧
    coll (fst (in_seq steps w)) = replay (map fst evs) (coll w) ∧
    tracks op_toString steps evs (snd (in_seq steps w)).
Proof.
  induction steps as [|st steps IH]; intros w; simpl.
  - exists []. rewrite app_nil_r. split_and!; [done..|constructor].
  - destruct (step_request op_toString st) as [r|e] eqn:Hreq.
    + destruct (serve r (coll w)) as [c [a|reason]] eqn:Hserve.
      * destruct (IH {| coll := c; sent := sent w ++ [(r, true)] |})
          as (evs & Hsent & Hcoll & Htr).
        exists ((r, true) :: evs). simpl in *. split_and!.
        -- by rewrite Hsent, <- app_assoc.
        -- rewrite Hcoll. unfold replay. simpl. by rewrite Hserve.
        -- by constructor.
      * exists [(r, false)]. simpl. split_and!; [done| |by constructor].
        unfold replay. simpl. by rewrite Hserve.
    + exists []. simpl. rewrite app_nil_r. split_and!; [done..|by constructor].
Qed.

End BulkFacts.

Section TrackFacts.

Variable op_toString : Op → string.

(** A sequence that is fulfilled has sent the command of every step, in
    order, and each was acknowledged. *)
Lemma tracks_fulfilled steps evs a :
  tracks op_toString steps evs (Fulfilled a) →
  ∃ requests, evs = map (λ r, (r, true)) requests ∧
    Forall2 (λ st r, step_request op_toString st = Ok r) steps requests.
Proof.
  remember (Fulfilled a) as s eqn:Hs.
  induction 1 as [| | |st rest r evs s Hreq Htr IH]; try discriminate.
  - by exists [].
  - destruct (IH Hs) as (requests & -> & Hall).
    exists (r :: requests). split; [done|by constructor].
Qed.

(** A refused command is the last one sent; those before it were
    acknowledged and the sequence is rejected. *)
Lemma tracks_nacked steps evs s r :
  tracks op_toString steps evs s → (r, false) ∈ evs →
  ∃ committed reason,
    evs = map (λ r, (r, true)) committed ++ [(r, false)] ∧
    s = Rejected (BackendFailure reason).
Proof.
  induction 1 as [| |st rest r0 reason Hreq|st rest r0 evs s Hreq Htr IH]; intros Hin.
  - inversion Hin.
  - inversion Hin.
  - apply list_elem_of_singleton in Hin as [= ->]. by exists [], reason.
  - apply elem_of_cons in Hin as [[=]|Hin].
    destruct (IH Hin) as (committed & reason & -> & ->).
    by exists (r0 :: committed), reason.
Qed.

(** Every command sent is the command of one of the steps. *)
Lemma tracks_steps steps evs s e :
  tracks op_toString steps evs s → e ∈ evs →
  ∃ st, st ∈ steps ∧ step_request op_toString st = Ok (fst e).
Proof.
  induction 1 as [| |st rest r0 reason Hreq|st rest r0 evs s Hreq Htr IH]; intros Hin.
  - inversion Hin.
  - inversion Hin.
  - apply list_elem_of_singleton in Hin as ->. exists st. split; [left|done].
  - apply elem_of_cons in Hin as [->|Hin].
    + exists st. split; [left|done].
    + destruct (IH Hin) as (st' & ? & ?). exists st'. split; [by right|done].
Qed.

(** When a refused command is an update, everything sent is an update: the
    sequence has not left its first phase. *)
Lemma tracks_update_phase updates tail evs s r :
  tracks op_toString (update_steps updates ++ tail) evs s →
  (∀ st r', st ∈ tail → step_request op_toString st = Ok r' → is_UpdateOne r' = false) →
  (r, false) ∈ evs → is_UpdateOne r = true →
  ∀ e, e ∈ evs → is_UpdateOne (fst e) = true.
Proof.
  unfold update_steps.
  induction (merges updates) as [|[k op] us IH] in evs |- *; simpl; intros Htr Htail Hin Hr.
  - destruct (tracks_steps _ _ _ _ Htr Hin) as (st & Hst & Hreq).
    simpl in Hreq. rewrite (Htail _ _ Hst Hreq) in Hr. done.
  - inversion Htr as [|? ? ? Hreq|? ? r0 ? Hreq|? ? r0 evs' ? Hreq Htr']; subst.
    + inversion Hin.
    + apply list_elem_of_singleton in Hin as [= ->].
      intros e ->%list_elem_of_singleton. done.
    + apply elem_of_cons in Hin as [[=]|Hin].
      intros e [->|He]%elem_of_cons; [|by eapply IH].
      simpl in Hreq |- *. destruct (diffToMongo_data _ _); [|done]. by injection Hreq as <-.
Qed.

End TrackFacts.

Section BulkClaims.

Context {Coll : Type} `{Backend Coll}.
Variable op_toString : Op → string.
Variable this : Store.

Lemma replay_snoc requests r (c : Coll) :
replay (requests ++ [r]) c = fst (serve r (replay requests c)).
Proof. unfold replay. by rewrite foldl_app. Qed.

Lemma update_requests (l : list (Value * Op)) requests :
Forall2 (λ st r, step_request op_toString st = Ok r)
  (map (λ e, StepUpdate (fst e) (snd e)) l) requests →
∃ commands,
  Forall2 (λ e mongo, diffToMongo_data op_toString (snd e) = Ok mongo) l commands ∧
  requests = zip_with (λ e mongo, UpdateOne (fst e) (Modify mongo) false) l commands.
Proof.
revert requests. induction l as [|[k op] l IH]; intros requests Hall; simpl in Hall.
- apply Forall2_nil_inv_l in Hall as ->. by exists [].
- apply Forall2_cons_inv_l in Hall as (r & requests' & Hr & Hall & ->).
  destruct (IH _ Hall) as (commands & Hcmds & ->).
  simpl in Hr. destruct (diffToMongo_data op_toString op) as [mongo|e] eqn:Hop; [|done].
  injection Hr as <-. exists (mongo :: commands). split; [by constructor|done].
Qed.

Lemma second_phase_requests patch st r :
st ∈ insert_step this patch ++ delete_step patch →
step_request op_toString st = Ok r → is_UpdateOne r = false.
Proof.
unfold insert_step, delete_step.
destruct (insert_items this patch), (delete_keys patch); simpl;
  rewrite ?elem_of_cons, ?elem_of_nil; intros Hst Hreq;
  destruct_or?; subst; try done; by injection Hreq as <-.
Qed.

Lemma update_step_merge (l : list (Value * Op)) st r :
st ∈ update_steps l → step_request op_toString st = Ok r →
∃ key diff mongo,
  (key, diff) ∈ merges l ∧ diffToMongo_data op_toString diff = Ok mongo ∧
  r = UpdateOne key (Modify mongo) false.
Proof.
unfold update_steps. intros ([k op] & -> & Hin)%list_elem_of_fmap. simpl.
destruct (diffToMongo_data op_toString op) as [mongo|e] eqn:Hop; [|done].
intros [= <-]. by exists k, op, mongo.
Qed.

(** C2, as the code has it.  A batch that holds a top-level [Rpl] makes
  [bulk] throw in the loop, for the first such entry.  No bulk insert and no
  bulk delete is sent, and nothing for an entry from the [Rpl] on: the only
  requests are updates for merges that stand before it, whose reactions
  were chained before the throw.  When no merge stands before it nothing is
  sent and the collection is as it was. *)
Theorem bulk_replace_throws patch (w : World Coll) k v :
(k, Rpl v) ∈ patch →
∃ k' v' evs,
  (k', Rpl v') ∈ patch ∧
  snd (run (bulk op_toString this patch) w) = Thrown (UnsupportedPatchShape (Rpl v')) ∧
  sent (fst (run (bulk op_toString this patch) w)) = sent w ++ evs ∧
  (∀ e, e ∈ evs →
     ∃ key diff mongo,
       (key, diff) ∈ merges (classified patch) ∧
       diffToMongo_data op_toString diff = Ok mongo ∧
       fst e = UpdateOne key (Modify mongo) false) ∧
  (merges (classified patch) = [] → fst (run (bulk op_toString this patch) w) = w).
Proof.
intros Hin. destruct (first_unsupported_Rpl _ _ _ Hin) as (k' & v' & Hfirst & Hin').
rewrite run_bulk, Hfirst. simpl.
destruct (in_sequence_tracks op_toString (update_steps (classified patch)) w)
  as (evs & Hsent & _ & Htr).
exists k', v', evs. split_and!; [done..| |].
- intros e He. destruct (tracks_steps _ _ _ _ _ Htr He) as (st & Hst & Hreq).
  by apply (update_step_merge (classified patch) st).
- unfold update_steps. by intros ->.
Qed.

(** X15.  On a batch of merges, inserts and deletes only, [bulk] is the
    plan run in sequence: the update of each merge in the order of the batch,
    then one insert of all the items if there is any, then one delete of all
    the keys if there is any, each sent once the one before was acknowledged;
    a merge that does not translate or a request that is refused ends it.
    When the call is fulfilled, every merge has translated and the requests
    it added are exactly these, all acknowledged. *)
Theorem bulk_command_order patch (w : World Coll) :
Forall (λ e, supported (snd e) = true) patch →
run (bulk op_toString this patch) w
  = settle (in_sequence op_toString (plan this patch) w) ∧
∀ w', run (bulk op_toString this patch) w = (w', Resolved tt) →
  ∃ commands,
    Forall2 (λ e mongo, diffToMongo_data op_toString (snd e) = Ok mongo)
      (merges patch) commands ∧
    sent w' = sent w ++ map (λ r, (r, true))
      (zip_with (λ e mongo, UpdateOne (fst e) (Modify mongo) false)
         (merges patch) commands
       ++ match insert_items this patch with
          | [] => []
          | items => [InsertMany items]
          end
       ++ match delete_keys patch with
          | [] => []
          | ids => [DeleteMany ids]
          end).
Proof.
intros Hall. destruct (first_unsupported_None _ Hall) as [Hfirst _].
rewrite run_bulk, Hfirst. split; [done|].
intros w' Hrun.
destruct (in_sequence_tracks op_toString (plan this patch) w)
  as (evs & Hsent & _ & Htr).
destruct (in_sequence op_toString (plan this patch) w) as [w1 [[]|e]];
  simpl in Hrun; [|done].
injection Hrun as ->. simpl in Hsent, Htr.
apply tracks_fulfilled in Htr as (requests & -> & Hreqs).
unfold plan in Hreqs.
apply Forall2_app_inv_l in Hreqs as (r1 & r23 & Hr1 & Hr23 & ->).
apply Forall2_app_inv_l in Hr23 as (r2 & r3 & Hr2 & Hr3 & ->).
apply update_requests in Hr1 as (commands & Hcmds & ->).
exists commands. split; [done|]. rewrite Hsent. do 3 f_equal.
unfold insert_step in Hr2. unfold delete_step in Hr3. f_equal.
- destruct (insert_items this patch).
  + by apply Forall2_nil_inv_l in Hr2.
  + apply Forall2_cons_inv_l in Hr2 as (r & ? & [= <-] & ->%Forall2_nil_inv_l & ->). done.
- destruct (delete_keys patch).
  + by apply Forall2_nil_inv_l in Hr3.
  + apply Forall2_cons_inv_l in Hr3 as (r & ? & [= <-] & ->%Forall2_nil_inv_l & ->). done.
Qed.

(** A refused update, seen from the sequence that sent it. *)
Lemma failure_in_update_phase updates tail (w : World Coll) evs r :
(∀ st r', st ∈ tail → step_request op_toString st = Ok r' → is_UpdateOne r' = false) →
sent (fst (in_sequence op_toString (update_steps updates ++ tail) w)) = sent w ++ evs →
(r, false) ∈ evs → is_UpdateOne r = true →
(∃ reason, snd (in_sequence op_toString (update_steps updates ++ tail) w)
           = Rejected (BackendFailure reason)) ∧
(∀ e, e ∈ evs → is_UpdateOne (fst e) = true) ∧
∃ committed,
  evs = map (λ r, (r, true)) committed ++ [(r, false)] ∧
  coll (fst (in_sequence op_toString (update_steps updates ++ tail) w))
  = fst (serve r (replay committed (coll w))).
Proof.
intros Htail Hsent Hin Hr.
destruct (in_sequence_tracks op_toString (update_steps updates ++ tail) w)
  as (evs' & Hsent' & Hcoll & Htr).
rewrite Hsent in Hsent'. apply app_inv_head in Hsent' as <-.
destruct (tracks_nacked _ _ _ _ _ Htr Hin) as (committed & reason & Hevs & Hs).
split_and!.
- by exists reason.
- by eapply tracks_update_phase.
- exists committed. split; [done|].
  rewrite Hcoll, Hevs, map_app, map_map. simpl. by rewrite map_id, replay_snoc.
Qed.

(** C4.  When the collection refuses an update sent by [bulk], the call
  fails, everything it sent is an update, so that neither the bulk insert
  nor the bulk delete is issued, and the refused update is the last
  request: the updates acknowledged before it stand, and the collection
  is the one they and the refused call left. *)
Theorem bulk_update_failure patch (w w' : World Coll) out evs k u b :
run (bulk op_toString this patch) w = (w', out) →
sent w' = sent w ++ evs →
(UpdateOne k u b, false) ∈ evs →
out ≠ Resolved tt ∧
((∃ reason, out = RejectedWith (BackendFailure reason)) ∨
 (∃ op, out = Thrown (UnsupportedPatchShape op))) ∧
(∀ e, e ∈ evs → is_UpdateOne (fst e) = true) ∧
∃ committed,
  evs = map (λ r, (r, true)) committed ++ [(UpdateOne k u b, false)] ∧
  coll w' = fst (serve (UpdateOne k u b) (replay committed (coll w))).
Proof.
rewrite run_bulk. intros Hrun Hsent Hin.
destruct (first_unsupported patch) as [op|].
- injection Hrun as <- <-.
  rewrite <- (app_nil_r (update_steps (classified patch))) in Hsent |- *.
  destruct (failure_in_update_phase (classified patch) [] w evs (UpdateOne k u b))
    as (_ & Hall & Hcommitted); [|done..|].
  { intros st r' Hst. inversion Hst. }
  split_and!; [done|right; by exists op|done..].
- unfold plan in Hrun.
  destruct (failure_in_update_phase patch (insert_step this patch ++ delete_step patch)
              w evs (UpdateOne k u b))
    as ([reason Hs] & Hall & Hcommitted); [| |done..| ].
  { intros st r'. apply second_phase_requests. }
  { by destruct (in_sequence _ _ w) as [w1 [a|e]]; injection Hrun as <- <-. }
  destruct (in_sequence _ _ w) as [w1 s]. simpl in Hs. subst s.
  injection Hrun as <- <-.
  split_and!; [done|left; by exists reason|done..].
Qed.

End BulkClaims.

(** C10.  On a batch without entries [bulk] is fulfilled and sends nothing:
    the world, that is the collection and the requests sent, is as before. *)
Theorem bulk_empty_patch {Coll : Type} `{Backend Coll} (op_toString : Op → string)
    (this : Store) (w : World Coll) :
  run (bulk op_toString this []) w = (w, Resolved tt).
Proof. reflexivity. Qed.

(** ** The registry *)



(** C6, on an index named [toString] that was never added.  [this.maps] is
    made by [{}] and inherits [toString], so [map === undefined] does not
    hold: [toMongoCriteria] throws nothing and returns the text that function
    gives, [findAll] sends a [find] with it and [removeAll] a [remove]. *)
Theorem inherited_index_name_accepted {Coll : Type} `{Backend Coll} (this : Store)
    (v : Value) (w : World Coll) :
  maps (indexes this) !! "toString" = None →
  toMongoCriteria (indexes this) {| name := "toString" |} v
  = Ok (VStr "[object Undefined]") ∧
  (∃ b, sent (fst (run (findAll this {| name := "toString" |} v) w))
        = sent w ++ [(Find (VStr "[object Undefined]"), b)]) ∧
  (∃ b, sent (fst (run (removeAll this {| name := "toString" |} v) w))
        = sent w ++ [(Remove (VStr "[object Undefined]"), b)]).
Proof.
  intros Hnone. unfold findAll, removeAll, toMongoCriteria. simpl. rewrite Hnone.
  unfold run, then_, attempt, call. simpl. split_and!; [done| |].
  - destruct (serve (Find _) (coll w)) as [c [a|reason]]; by eexists.
  - destruct (serve (Remove _) (coll w)) as [c [a|reason]]; by eexists.
Qed.

(** ** The collection in memory *)

Lemma value_eqb_eq : ∀ a b : Value, value_eqb a b = true ↔ a = b.
Proof.
  fix IH 1. intros a b.
  destruct a as [| |x|x|x|fa], b as [| |y|y|y|fb]; simpl;
    try (split; (done || discriminate)).
  - rewrite Bool.eqb_true_iff. split; [by intros ->|by intros [= ->]].
  - rewrite Z.eqb_eq. split; [by intros ->|by intros [= ->]].
  - rewrite String.eqb_eq. split; [by intros ->|by intros [= ->]].
  - revert fb. induction fa as [|[ka va] fa IHfa]; intros [|[kb vb] fb];
      try (split; (done || discriminate)).
    rewrite !andb_true_iff, String.eqb_eq, (IH va vb), (IHfa fb).
    split; [by intros [[-> ->] [= ->]]|by intros [= -> -> ->]].
Qed.

Lemma value_eqb_refl (a : Value) : value_eqb a a = true.
Proof. by apply value_eqb_eq. Qed.

Lemma get_put {A : Type} (k : string) (v : A) obj : get k (put k v obj) = Some v.
Proof.
  induction obj as [|[k' v'] obj IH]; simpl.
  - by rewrite String.eqb_refl.
  - destruct (String.eqb k' k) eqn:Hk; simpl; by rewrite Hk.
Qed.

Lemma has_id_with_id (_id doc : Value) : Mem.has_id _id (Mem.with_id _id doc) = true.
Proof.
  unfold Mem.has_id, Mem.doc_id, Mem.with_id, prop.
  destruct doc; simpl; rewrite ?get_put, ?String.eqb_refl; simpl; apply value_eqb_refl.
Qed.

Lemma find_replace_doc _id (doc old : Value) l :
  List.find (Mem.has_id _id) l = Some old → Mem.has_id _id doc = true →
  List.find (Mem.has_id _id) (Mem.replace_doc _id doc l) = Some doc ∧
  Mem.replace_doc _id doc (Mem.replace_doc _id doc l) = Mem.replace_doc _id doc l.
Proof.
  intros Hfind Hdoc. induction l as [|d l IH]; simpl in *; [done|].
  destruct (Mem.has_id _id d) eqn:Hd; simpl.
  - by rewrite Hdoc.
  - rewrite Hd. destruct (IH Hfind) as [-> ->]. done.
Qed.

Lemma find_append _id (doc : Value) l :
  List.find (Mem.has_id _id) l = None → Mem.has_id _id doc = true →
  List.find (Mem.has_id _id) (l ++ [doc]) = Some doc ∧
  Mem.replace_doc _id doc (l ++ [doc]) = l ++ [doc].
Proof.
  intros Hfind Hdoc. induction l as [|d l IH]; simpl in *.
  - by rewrite Hdoc.
  - destruct (Mem.has_id _id d) eqn:Hd; [done|]. destruct (IH Hfind) as [-> ->]. done.
Qed.

(** Replacing a document by key, inserting it when the key is new, is the
    same done once or twice. *)
Lemma upsert_twice _id doc (c : Mem.Coll) :
  fst (Mem.updateOne _id (Replace doc) true (fst (Mem.updateOne _id (Replace doc) true c)))
  = fst (Mem.updateOne _id (Replace doc) true c).
Proof.
  unfold Mem.updateOne at 2 3. simpl.
  destruct (value_eqb (Mem.doc_id doc) VUndefined || value_eqb (Mem.doc_id doc) _id) eqn:Hok.
  - pose proof (has_id_with_id _id doc) as Hid.
    destruct (List.find (Mem.has_id _id) (Mem.docs c)) as [old|] eqn:Hfind; simpl.
    + destruct (find_replace_doc _ _ _ _ Hfind Hid) as [Hf Hr].
      unfold Mem.updateOne. simpl. by rewrite Hf, Hok, Hr.
    + destruct (find_append _ _ _ Hfind Hid) as [Hf Hr].
      unfold Mem.updateOne. simpl. by rewrite Hf, Hok, Hr.
  - destruct (List.find (Mem.has_id _id) (Mem.docs c)) as [old|] eqn:Hfind; simpl.
    + unfold Mem.updateOne. simpl. by rewrite Hfind, Hok.
    + unfold Mem.updateOne. simpl. by rewrite Hfind, Hok.
Qed.

(** [find] on any collection: it sends [findOne] and nothing else, and
    settles by the answer. *)
Lemma find_settles {Coll : Type} `{Backend Coll} (this : Store) (_id : Value)
    (w : World Coll) :
  run (find this _id) w
  = match serve (FindOne _id) (coll w) with
    | (c, Ack None) =>
        ({| coll := c; sent := sent w ++ [(FindOne _id, true)] |},
         RejectedWith (DoesNotExist _id))
    | (c, Ack (Some item)) =>
        ({| coll := c; sent := sent w ++ [(FindOne _id, true)] |},
         Resolved (fromJSON this (value (options this) item)))
    | (c, Nack reason) =>
        ({| coll := c; sent := sent w ++ [(FindOne _id, false)] |},
         RejectedWith (BackendFailure reason))
    end.
Proof.
  unfold find, run, then_, call.
  by destruct (serve (FindOne _id) (coll w)) as [c [[item|]|reason]].
Qed.

(** [update] on any collection: one upsert, fixed by the entity alone. *)
Lemma update_settles {Coll : Type} `{Backend Coll} (this : Store) (object : Value)
    (w : World Coll) :
  coll (fst (run (update this object) w))
  = fst (serve (UpdateOne (key (options this) object)
                  (Replace (entry (options this) (key (options this) object) object))
                  true)
           (coll w)).
Proof.
  unfold update, run, call.
  by destruct (serve _ (coll w)) as [c [a|reason]].
Qed.

(** What [find] comes to on the collection in memory. *)
Lemma find_outcome (this : Store) (_id : Value) (w : World Mem.Coll) :
  run (find this _id) w
  = ({| coll := coll w; sent := sent w ++ [(FindOne _id, true)] |},
     match List.find (Mem.has_id _id) (Mem.docs (coll w)) with
     | None => RejectedWith (DoesNotExist _id)
     | Some item => Resolved (fromJSON this (value (options this) item))
     end).
Proof.
  rewrite find_settles. simpl.
  by destruct (List.find _ _).
Qed.

(** C7.  On the collection in memory, [update] of an entity a second time
    leaves the collection that the first left, and [find] of any key, that of
    the entity among them, comes to the same after both. *)
Theorem update_idempotent (this : Store) (object : Value) (w : World Mem.Coll) :
  coll (fst (run (update this object) (fst (run (update this object) w))))
  = coll (fst (run (update this object) w)) ∧
  ∀ _id,
    snd (run (find this _id) (fst (run (update this object) (fst (run (update this object) w)))))
    = snd (run (find this _id) (fst (run (update this object) w))).
Proof.
  assert (Hsame : coll (fst (run (update this object) (fst (run (update this object) w))))
                  = coll (fst (run (update this object) w))).
  { rewrite !update_settles. apply upsert_twice. }
  split; [done|]. intros _id. rewrite !find_outcome. cbn [snd coll]. by rewrite Hsame.
Qed.

(** C9.  On the collection in memory, [find] of a key that no document has
    is rejected with [DoesNotExist]; when a document has the key, it resolves
    to the entity built from such a document; and it leaves the collection
    as it is. *)
Theorem find_by_key (this : Store) (_id : Value) (w : World Mem.Coll) :
  (Forall (λ doc, Mem.doc_id doc ≠ _id) (Mem.docs (coll w)) →
   snd (run (find this _id) w) = RejectedWith (DoesNotExist _id)) ∧
  (Exists (λ doc, Mem.doc_id doc = _id) (Mem.docs (coll w)) →
   ∃ item, item ∈ Mem.docs (coll w) ∧ Mem.doc_id item = _id ∧
     snd (run (find this _id) w) = Resolved (fromJSON this (value (options this) item))) ∧
  coll (fst (run (find this _id) w)) = coll w.
Proof.
  rewrite find_outcome. simpl. split_and!; [| |done].
  - intros Hnone. destruct (List.find _ _) as [item|] eqn:Hfind; [|done].
    apply find_some in Hfind as [Hin Hid].
    rewrite Forall_forall in Hnone. apply list_elem_of_In, Hnone in Hin.
    by apply value_eqb_eq in Hid.
  - intros Hsome. destruct (List.find _ _) as [item|] eqn:Hfind.
    + apply find_some in Hfind as [Hin Hid]. exists item.
      split_and!; [by apply list_elem_of_In|by apply value_eqb_eq|done].
    + apply Exists_exists in Hsome as (doc & Hin & Hdoc).
      apply list_elem_of_In in Hin.
      pose proof (find_none _ _ Hfind _ Hin) as Hno.
      unfold Mem.has_id in Hno. rewrite Hdoc, value_eqb_refl in Hno. done.
Qed.

(** ** The statements on the store of the test suite *)

Lemma diffToMongo_omits_empty_groups_witness :
  diffToMongo object_toString inserted_diff = Ok inserted_command ∧
  (∀ s, cmd_set inserted_command = Some s →
     s ≠ ∅ ∧ ∃ n op d, (n, op) ∈ inserted_diff ∧ set_data op = Some d ∧ is_Some (s !! n)) ∧
  (∀ u, cmd_unset inserted_command = Some u →
     u ≠ ∅ ∧ ∃ n, (n, DEL) ∈ inserted_diff ∧ is_Some (u !! n)) ∧
  (cmd_set inserted_command = None →
   ∀ n op d, (n, op) ∈ inserted_diff → set_data op = Some d → n = "__proto__") ∧
  (cmd_unset inserted_command = None → ∀ n, (n, DEL) ∈ inserted_diff → n = "__proto__").
Proof.
  split; [vm_compute; reflexivity|].
  apply (proj2 (diffToMongo_omits_empty_groups object_toString)
           inserted_diff inserted_command).
  vm_compute; reflexivity.
Defined.

Lemma bulk_replace_throws_witness :
  (VNum 2, Rpl (simple 2 "hello" "you")) ∈ replace_patch ∧
  ∃ k' v' evs,
    (k', Rpl v') ∈ replace_patch ∧
    snd (run (bulk object_toString test_store replace_patch) three_entities)
    = Thrown (UnsupportedPatchShape (Rpl v')) ∧
    sent (fst (run (bulk object_toString test_store replace_patch) three_entities))
    = sent three_entities ++ evs ∧
    (∀ e, e ∈ evs →
       ∃ key diff mongo,
         (key, diff) ∈ merges (classified replace_patch) ∧
         diffToMongo_data object_toString diff = Ok mongo ∧
         fst e = UpdateOne key (Modify mongo) false) ∧
    (merges (classified replace_patch) = [] →
     fst (run (bulk object_toString test_store replace_patch) three_entities)
     = three_entities).
Proof.
  split; [right; left|].
  apply (bulk_replace_throws object_toString test_store replace_patch three_entities
           (VNum 2) (simple 2 "hello" "you")).
  right; left.
Defined.

(** C2, as the specification words it, fails on [replace_patch]: the call
    throws for the [Rpl] of key 2, and still the update for the merge of key 1
    is sent and changes the collection. *)
Lemma bulk_replace_after_merge_updates :
  snd (run (bulk object_toString test_store replace_patch) three_entities)
  = Thrown (UnsupportedPatchShape (Rpl (simple 2 "hello" "you"))) ∧
  sent (fst (run (bulk object_toString test_store replace_patch) three_entities))
  = [(UpdateOne (VNum 1) (Modify pizza_command) false, true)] ∧
  coll (fst (run (bulk object_toString test_store replace_patch) three_entities))
  ≠ coll three_entities.
Proof.
  split_and!; [vm_compute; reflexivity..|].
  vm_compute. intros [=].
Qed.

Lemma bulk_command_order_witness :
  Forall (λ e, supported (snd e) = true) sync_patch ∧
  run (bulk object_toString test_store sync_patch) three_entities
  = (fst (run (bulk object_toString test_store sync_patch) three_entities), Resolved tt) ∧
  ∃ commands,
    Forall2 (λ e mongo, diffToMongo_data object_toString (snd e) = Ok mongo)
      (merges sync_patch) commands ∧
    sent (fst (run (bulk object_toString test_store sync_patch) three_entities))
    = sent three_entities ++ map (λ r, (r, true))
        (zip_with (λ e mongo, UpdateOne (fst e) (Modify mongo) false)
           (merges sync_patch) commands
         ++ match insert_items test_store sync_patch with
            | [] => []
            | items => [InsertMany items]
            end
         ++ match delete_keys sync_patch with
            | [] => []
            | ids => [DeleteMany ids]
            end).
Proof.
  assert (Hall : Forall (λ e, supported (snd e) = true) sync_patch)
    by (repeat constructor).
  assert (Hrun : run (bulk object_toString test_store sync_patch) three_entities
                 = (fst (run (bulk object_toString test_store sync_patch) three_entities),
                    Resolved tt))
    by (vm_compute; reflexivity).
  split; [exact Hall|]. split; [exact Hrun|].
  exact (proj2 (bulk_command_order object_toString test_store sync_patch three_entities
                  Hall) _ Hrun).
Defined.

Lemma bulk_update_failure_witness :
  run (bulk object_toString test_store failing_patch) three_entities
  = (fst (run (bulk object_toString test_store failing_patch) three_entities),
     RejectedWith (BackendFailure "the _id field is immutable")) ∧
  sent (fst (run (bulk object_toString test_store failing_patch) three_entities))
  = sent three_entities ++ failing_events ∧
  (UpdateOne (VNum 2) (Modify {| cmd_set := Some {[ "_id" := VNum 9 ]}; cmd_unset := None |})
     false, false) ∈ failing_events ∧
  RejectedWith (BackendFailure "the _id field is immutable") ≠ Resolved tt ∧
  ((∃ reason, RejectedWith (BackendFailure "the _id field is immutable")
              = RejectedWith (A := unit) (BackendFailure reason)) ∨
   (∃ op, RejectedWith (BackendFailure "the _id field is immutable")
          = Thrown (A := unit) (UnsupportedPatchShape op))) ∧
  (∀ e, e ∈ failing_events → is_UpdateOne (fst e) = true) ∧
  ∃ committed,
    failing_events
    = map (λ r, (r, true)) committed
      ++ [(UpdateOne (VNum 2)
             (Modify {| cmd_set := Some {[ "_id" := VNum 9 ]}; cmd_unset := None |})
             false, false)] ∧
    coll (fst (run (bulk object_toString test_store failing_patch) three_entities))
    = fst (serve
             (UpdateOne (VNum 2)
                (Modify {| cmd_set := Some {[ "_id" := VNum 9 ]}; cmd_unset := None |})
                false)
             (replay committed (coll three_entities))).
Proof.
  assert (Hrun : run (bulk object_toString test_store failing_patch) three_entities
                 = (fst (run (bulk object_toString test_store failing_patch) three_entities),
                    RejectedWith (BackendFailure "the _id field is immutable")))
    by (vm_compute; reflexivity).
  assert (Hsent : sent (fst (run (bulk object_toString test_store failing_patch)
                               three_entities))
                  = sent three_entities ++ failing_events)
    by (vm_compute; reflexivity).
  assert (Hin : (UpdateOne (VNum 2)
                   (Modify {| cmd_set := Some {[ "_id" := VNum 9 ]}; cmd_unset := None |})
                   false, false) ∈ failing_events)
    by (right; left).
  split; [exact Hrun|]. split; [exact Hsent|]. split; [exact Hin|].
  exact (bulk_update_failure object_toString test_store failing_patch three_entities
           _ _ failing_events _ _ _ Hrun Hsent Hin).
Defined.


Lemma inherited_index_name_accepted_witness :
  maps (indexes test_store) !! "toString" = None ∧
  toMongoCriteria (indexes test_store) {| name := "toString" |} (VStr "hello")
  = Ok (VStr "[object Undefined]") ∧
  (∃ b, sent (fst (run (findAll test_store {| name := "toString" |} (VStr "hello"))
                     three_entities))
        = sent three_entities ++ [(Find (VStr "[object Undefined]"), b)]) ∧
  (∃ b, sent (fst (run (removeAll test_store {| name := "toString" |} (VStr "hello"))
                     three_entities))
        = sent three_entities ++ [(Remove (VStr "[object Undefined]"), b)]).
Proof.
  assert (Hnone : maps (indexes test_store) !! "toString" = None)
    by (vm_compute; reflexivity).
  split; [exact Hnone|].
  exact (inherited_index_name_accepted test_store (VStr "hello") three_entities Hnone).
Defined.


Lemma find_by_key_witness :
  (Forall (λ doc, Mem.doc_id doc ≠ VNum 2)
     (Mem.docs (coll (fst (run (update test_store (simple 1 "hello" "world")) fresh)))) ∧
   snd (run (find test_store (VNum 2))
          (fst (run (update test_store (simple 1 "hello" "world")) fresh)))
   = RejectedWith (DoesNotExist (VNum 2))) ∧
  (Exists (λ doc, Mem.doc_id doc = VNum 1) (Mem.docs (coll three_entities)) ∧
   ∃ item, item ∈ Mem.docs (coll three_entities) ∧ Mem.doc_id item = VNum 1 ∧
     snd (run (find test_store (VNum 1)) three_entities)
     = Resolved (fromJSON test_store (value (options test_store) item))).
Proof.
  assert (Hnone : Forall (λ doc, Mem.doc_id doc ≠ VNum 2)
            (Mem.docs (coll (fst (run (update test_store (simple 1 "hello" "world")) fresh))))).
  { repeat constructor. vm_compute. intros [=]. }
  assert (Hsome : Exists (λ doc, Mem.doc_id doc = VNum 1) (Mem.docs (coll three_entities))).
  { left. reflexivity. }
  split.
  - split; [exact Hnone|].
    exact (proj1 (find_by_key test_store (VNum 2) _) Hnone).
  - split; [exact Hsome|].
    exact (proj1 (proj2 (find_by_key test_store (VNum 1) three_entities)) Hsome).
Defined.

(** The bulk test of the suite: after the batch, entity 1 has [b = "pizza"]
    and keeps its other fields. *)
Example bulk_pizza :
  snd (run (find test_store (VNum 1))
         (fst (run (bulk object_toString test_store pizza_patch) three_entities)))
  = Resolved (simple 1 "hello" "pizza").
Proof. vm_compute. reflexivity. Qed.

(** * Further properties *)

(** ** The translator on the fields of a merge *)

Section TranslatorMore.

Variable op_toString : Op → string.
Local Abbreviation loop0 := (fun rec diff rest mongo =>
_diffToMongo_loop op_toString rec diff rest mongo EmptyString).

(** A path is left as it was by the fields that do not name it. *)
Lemma loop_keeps rec diff rest mongo mongo' path :
  loop0 rec diff rest mongo = Ok mongo' →
  path ∉ map fst rest →
  acc_set mongo' !! path = acc_set mongo !! path ∧
  acc_unset mongo' !! path = acc_unset mongo !! path.
Proof.
  revert mongo. induction rest as [|[n p] rest IH]; intros mongo; simpl.
  - by intros [= <-].
  - intros Hl Hnot. apply not_elem_of_cons in Hnot as [Hne Hnot].
    destruct p as [d| |sub|d].
    + destruct (IH _ Hl Hnot) as [-> ->]. unfold assign_set.
      case_decide; simpl; [done|]. by rewrite lookup_insert_ne.
    + destruct (IH _ Hl Hnot) as [-> ->]. unfold assign_unset.
      case_decide; simpl; [done|]. by rewrite lookup_insert_ne.
    + destruct (get _ diff) as [target|]; [|done].
      destruct (match data_of target with DataFields s => rec s | DataValue v => _ end);
        [|done].
      by apply IH.
    + destruct (IH _ Hl Hnot) as [-> ->]. unfold assign_set.
      case_decide; simpl; [done|]. by rewrite lookup_insert_ne.
Qed.

Lemma loop_values rec diff rest mongo mongo' :
  loop0 rec diff rest mongo = Ok mongo' →
  NoDup (map fst rest) →
  (∀ n op d, (n, op) ∈ rest → set_data op = Some d → n ≠ "__proto__" →
             acc_set mongo' !! n = Some d) ∧
  (∀ n, (n, DEL) ∈ rest → n ≠ "__proto__" →
        acc_unset mongo' !! n = Some (VStr EmptyString)).
Proof.
  revert mongo. induction rest as [|[n p] rest IH]; intros mongo; simpl.
  - intros _ _. split; intros; exfalso; by eapply not_elem_of_nil.
  - intros Hl [Hn Hnd]%NoDup_cons.
    assert (Hrest : ∀ m1, loop0 rec diff rest m1 = Ok mongo' →
              (∀ n' op d, (n', op) ∈ rest → set_data op = Some d → n' ≠ "__proto__" →
                          acc_set mongo' !! n' = Some d) ∧
              (∀ n', (n', DEL) ∈ rest → n' ≠ "__proto__" →
                     acc_unset mongo' !! n' = Some (VStr EmptyString)))
      by (intros m1 Hm1; by apply (IH m1)).
    assert (Hset : ∀ d0, loop0 rec diff rest (assign_set mongo n d0) = Ok mongo' →
              n ≠ "__proto__" → acc_set mongo' !! n = Some d0).
    { intros d0 Hl0 Hp. destruct (loop_keeps _ _ _ _ _ n Hl0 Hn) as [-> _].
      unfold assign_set. case_decide; [done|]. simpl. by rewrite lookup_insert_eq. }
    destruct p as [d| |sub|d].
    + destruct (Hrest _ Hl) as [Hs Hu].
      split; [|intros n' [[=]|Hin]%elem_of_cons; by apply Hu].
      intros n' op d' [[= -> ->]|Hin]%elem_of_cons Hd Hp; [|by eapply Hs].
      injection Hd as <-. by apply Hset.
    + destruct (Hrest _ Hl) as [Hs Hu].
      split; [intros n' op d' [[= -> ->]|Hin]%elem_of_cons Hd Hp; [done|by eapply Hs]|].
      intros n' [[= ->]|Hin]%elem_of_cons Hp; [|by apply Hu].
      destruct (loop_keeps _ _ _ _ _ n Hl Hn) as [_ ->].
      unfold assign_unset. case_decide; [done|]. simpl. by rewrite lookup_insert_eq.
    + destruct (get _ diff) as [target|]; [|done].
      destruct (match data_of target with DataFields s => rec s | DataValue v => _ end);
        [|done].
      destruct (Hrest _ Hl) as [Hs Hu].
      split; [intros n' op d' [[= -> ->]|Hin]%elem_of_cons Hd Hp; [done|by eapply Hs]|].
      intros n' [[=]|Hin]%elem_of_cons; by apply Hu.
    + destruct (Hrest _ Hl) as [Hs Hu].
      split; [|intros n' [[=]|Hin]%elem_of_cons; by apply Hu].
      intros n' op d' [[= -> ->]|Hin]%elem_of_cons Hd Hp; [|by eapply Hs].
      injection Hd as <-. by apply Hset.
Qed.

Lemma loop_stuck rec diff rest mongo n sub :
(n, Mrg sub) ∈ rest →
(∀ n' sub', (n', Mrg sub') ∈ rest → get (op_toString (Mrg sub')) diff = None) →
loop0 rec diff rest mongo = Throw TypeError.
Proof.
revert mongo. induction rest as [|[n0 p] rest IH]; intros mongo Hin Hnone; simpl.
- inversion Hin.
- assert (∀ n' sub', (n', Mrg sub') ∈ rest →
            get (op_toString (Mrg sub')) diff = None) as Hnone'
    by (intros n' sub' Hin'; apply (Hnone n'); by right).
  destruct p as [d| |sub0|d].
  + apply elem_of_cons in Hin as [[=]|Hin]. by apply IH.
  + apply elem_of_cons in Hin as [[=]|Hin]. by apply IH.
  + rewrite (Hnone n0 sub0); [done|left].
  + apply elem_of_cons in Hin as [[=]|Hin]. by apply IH.
Qed.

End TranslatorMore.

Lemma loop_flat rest mongo :
  (∀ n op, (n, op) ∈ rest → is_Mrg op = false) →
  ∃ mongo', ∀ op_toString rec diff,
    _diffToMongo_loop op_toString rec diff rest mongo EmptyString = Ok mongo'.
Proof.
  revert mongo. induction rest as [|[n p] rest IH]; intros mongo Hflat; simpl.
  - by exists mongo.
  - assert (∀ n' op, (n', op) ∈ rest → is_Mrg op = false) as Hflat'
      by (intros n' op Hin; apply (Hflat n'); by right).
    destruct p as [d| |sub|d]; [by apply IH..| |by apply IH].
    specialize (Hflat n (Mrg sub)). simpl in Hflat. discriminate Hflat. left.
Qed.

(** X1.  When a merge with distinct field names translates, [$set] holds
    exactly the data of its [Rpl] and [Ins] fields under their names and
    [$unset] exactly the names of its [DEL] fields, each with the empty
    string; a field named [__proto__] leaves nothing in either. *)
Theorem diffToMongo_fields (op_toString : Op → string) diff cmd :
  diffToMongo op_toString diff = Ok cmd →
  NoDup (map fst diff) →
  (∀ n d, n ≠ "__proto__" →
     (∃ op, (n, op) ∈ diff ∧ set_data op = Some d)
     ↔ default ∅ (cmd_set cmd) !! n = Some d) ∧
  (∀ n, n ≠ "__proto__" →
     (n, DEL) ∈ diff ↔ default ∅ (cmd_unset cmd) !! n = Some (VStr EmptyString)) ∧
  (∀ n v, default ∅ (cmd_unset cmd) !! n = Some v → v = VStr EmptyString) ∧
  default ∅ (cmd_set cmd) !! "__proto__" = None ∧
  default ∅ (cmd_unset cmd) !! "__proto__" = None.
Proof.
  intros Hcmd Hnd. destruct (diffToMongo_paths _ _ _ Hcmd) as [Hset Hunset].
  assert (∃ m, _diffToMongo_loop op_toString
                 (diffToMongo_at op_toString (diff_depth diff)) diff diff
                 {| acc_set := ∅; acc_unset := ∅ |} EmptyString = Ok m ∧
               cmd = drop_empty_groups m) as (m & Hloop & ->).
  { revert Hcmd. unfold diffToMongo. simpl. unfold _diffToMongo.
    destruct (_diffToMongo_loop _ _ diff diff _ _) as [m|e]; [|done].
    intros [= <-]. by exists m. }
  destruct (loop_values _ _ _ _ _ _ Hloop Hnd) as [Hs Hu].
  assert (Hs' : ∀ n op d, (n, op) ∈ diff → set_data op = Some d → n ≠ "__proto__" →
            default ∅ (cmd_set (drop_empty_groups m)) !! n = Some d).
  { intros n op d Hin Hd Hp. specialize (Hs n op d Hin Hd Hp). simpl.
    case_decide as Hsz; [|done].
    apply map_size_empty_iff in Hsz. rewrite Hsz in Hs. by rewrite lookup_empty in Hs. }
  assert (Hu' : ∀ n, (n, DEL) ∈ diff → n ≠ "__proto__" →
            default ∅ (cmd_unset (drop_empty_groups m)) !! n = Some (VStr EmptyString)).
  { intros n Hin Hp. specialize (Hu n Hin Hp). simpl. case_decide as Hsz; [|done].
    apply map_size_empty_iff in Hsz. rewrite Hsz in Hu. by rewrite lookup_empty in Hu. }
  split_and!.
  - intros n d Hp. split; [intros (op & Hin & Hd); by eapply Hs'|]. intros Hn.
    destruct (proj1 (Hset n)) as (_ & op & d' & Hin & Hd); [by eexists|].
    pose proof (Hs' _ _ _ Hin Hd Hp) as Hn'. rewrite Hn in Hn'. injection Hn' as ->.
    by exists op.
  - intros n Hp. split; [intros Hin; by apply Hu'|]. intros Hn.
    apply Hunset. by eexists.
  - intros n v Hn. destruct (proj1 (Hunset n)) as [Hp Hin]; [by eexists|].
    pose proof (Hu' _ Hin Hp) as Hn'. rewrite Hn in Hn'. by injection Hn' as ->.
  - apply eq_None_not_Some. intros Hsome. by destruct (proj1 (Hset "__proto__") Hsome).
  - apply eq_None_not_Some. intros Hsome. by destruct (proj1 (Hunset "__proto__") Hsome).
Qed.

(** X2.  A merge none of whose fields is itself a merge always translates,
    and to the same command however the patch library renders operations. *)
Theorem diffToMongo_flat (op_toString : Op → string) diff :
  (∀ n op, (n, op) ∈ diff → is_Mrg op = false) →
  ∃ cmd, diffToMongo op_toString diff = Ok cmd ∧
    ∀ op_toString', diffToMongo op_toString' diff = Ok cmd.
Proof.
  intros Hflat.
  destruct (loop_flat diff {| acc_set := ∅; acc_unset := ∅ |} Hflat) as (m & Hm).
  exists (drop_empty_groups m). unfold diffToMongo. simpl. unfold _diffToMongo.
  split; [|intros ts']; by rewrite Hm.
Qed.

(** X3.  A merge that holds a nested merge, and no field named by the text
    of a merge it holds, does not translate: [diffToMongo] throws a
    [TypeError], whatever else the merge holds. *)
Theorem diffToMongo_nested_throws (op_toString : Op → string) diff n sub :
  (n, Mrg sub) ∈ diff →
  (∀ n' sub', (n', Mrg sub') ∈ diff → get (op_toString (Mrg sub')) diff = None) →
  diffToMongo op_toString diff = Throw TypeError.
Proof.
  intros Hin Hnone. unfold diffToMongo. simpl. unfold _diffToMongo.
  by rewrite (loop_stuck op_toString _ diff diff _ n sub Hin Hnone).
Qed.

(** ** The registry and the options *)

(** X4.  The registry is keyed by the name of the index alone: a second
    index with the same name takes the place of the first, and indexes with
    different names can be added in either order. *)
Theorem addSimpleField_by_name (this : IndexMap) (p q : Predicate) (n m : string) :
  (name q = name p →
   ∀ v, toMongoCriteria (receiver (addSimpleField q m (receiver (addSimpleField p n this)))) p v
        = Ok (VObj [(m, v)])) ∧
  (name q ≠ name p →
   receiver (addSimpleField q m (receiver (addSimpleField p n this)))
   = receiver (addSimpleField p n (receiver (addSimpleField q m this)))).
Proof.
  unfold toMongoCriteria, addSimpleField. simpl. split.
  - intros -> v. by rewrite lookup_insert_eq.
  - intros Hne. f_equal. by apply insert_insert_ne.
Qed.




(** X7.  With an index added for a field, [findAll] and [removeAll] each
    send one request and no more, with the same criteria: the field equal
    to the value. *)
Theorem registered_index_requests {Coll : Type} `{Backend Coll} (this : Store)
    (index : Predicate) (field : string) (v : Value) (w : World Coll) :
  maps (indexes this) !! name index = Some (simple_field field) →
  (∃ b, sent (fst (run (findAll this index v) w))
        = sent w ++ [(Find (VObj [(field, v)]), b)]) ∧
  (∃ b, sent (fst (run (removeAll this index v) w))
        = sent w ++ [(Remove (VObj [(field, v)]), b)]).
Proof.
  intros Hreg. unfold findAll, removeAll, toMongoCriteria. rewrite Hreg.
  unfold run, then_, attempt, call, simple_field. split.
  - destruct (serve (Find _) (coll w)) as [c [a|reason]]; by eexists.
  - destruct (serve (Remove _) (coll w)) as [c [a|reason]]; by eexists.
Qed.

(** ** More on the bulk sequencer *)

Section BulkMore.

Context {Coll : Type} `{Backend Coll}.
Variable op_toString : Op → string.
Variable this : Store.

(** The requests of the second phase, seen from the sequence: an insert
  that is refused comes right after the updates, all acknowledged, and
  ends the sequence. *)
Lemma tracks_insert_phase updates patch evs s items :
tracks op_toString (update_steps updates ++ insert_step this patch ++ delete_step patch)
  evs s →
(InsertMany items, false) ∈ evs →
∃ committed reason,
  evs = map (λ r, (r, true)) committed ++ [(InsertMany items, false)] ∧
  Forall (λ r, is_UpdateOne r = true) committed ∧
  s = Rejected (BackendFailure reason).
Proof.
unfold update_steps.
induction (merges updates) as [|[k op] us IH] in evs |- *; simpl; intros Htr Hin.
- unfold insert_step, delete_step in Htr.
  destruct (insert_items this patch) as [|i0 items0]; simpl in Htr.
  + destruct (tracks_steps _ _ _ _ _ Htr Hin) as (st & Hst & Hreq).
    destruct (delete_keys patch); [inversion Hst|].
    apply list_elem_of_singleton in Hst as ->. done.
  + inversion Htr as [|? ? ? Hreq|? ? r0 reason Hreq|? ? r0 evs' ? Hreq Htr']; subst.
    * done.
    * injection Hreq as <-. apply list_elem_of_singleton in Hin as [= <-].
      by exists [], reason.
    * injection Hreq as <-. apply elem_of_cons in Hin as [[=]|Hin].
      destruct (tracks_steps _ _ _ _ _ Htr' Hin) as (st & Hst & Hreq).
      destruct (delete_keys patch); [inversion Hst|].
      apply list_elem_of_singleton in Hst as ->. done.
- inversion Htr as [|? ? ? Hreq|? ? r0 reason Hreq|? ? r0 evs' ? Hreq Htr']; subst.
  + inversion Hin.
  + apply list_elem_of_singleton in Hin as [= <-].
    simpl in Hreq. by destruct (diffToMongo_data _ _).
  + apply elem_of_cons in Hin as [[=]|Hin].
    destruct (IH _ Htr' Hin) as (committed & reason & -> & Hall & ->).
    exists (r0 :: committed), reason. split_and!; [done| |done].
    constructor; [|done]. simpl in Hreq.
    destruct (diffToMongo_data _ _); [by injection Hreq as <-|done].
Qed.

(** A sequence that holds an update without a command is rejected before it
  leaves the updates. *)
Lemma tracks_stuck updates tail evs s k diff e :
tracks op_toString (update_steps updates ++ tail) evs s →
(k, diff) ∈ merges updates → diffToMongo_data op_toString diff = Throw e →
(∃ e', s = Rejected e') ∧ ∀ ev, ev ∈ evs → is_UpdateOne (fst ev) = true.
Proof.
unfold update_steps.
induction (merges updates) as [|[k0 op] us IH] in evs |- *; simpl; intros Htr Hin He.
- inversion Hin.
- inversion Htr as [|? ? e0 Hreq|? ? r0 reason Hreq|? ? r0 evs' ? Hreq Htr']; subst.
  + split; [by eexists|]. intros ev Hev. inversion Hev.
  + split; [by eexists|]. intros ev ->%list_elem_of_singleton.
    simpl in Hreq |- *. destruct (diffToMongo_data _ op); [by injection Hreq as <-|done].
  + apply elem_of_cons in Hin as [[= -> ->]|Hin].
    { simpl in Hreq. by rewrite He in Hreq. }
    destruct (IH _ Htr' Hin He) as [Hs Hall]. split; [done|].
    intros ev [->|Hev]%elem_of_cons; [|by apply Hall].
    simpl in Hreq |- *. destruct (diffToMongo_data _ op); [by injection Hreq as <-|done].
Qed.

Lemma merges_classified patch k diff :
(k, diff) ∈ merges (classified patch) → (k, diff) ∈ merges patch.
Proof.
unfold merges. induction patch as [|[k0 op] patch IH]; simpl; [done|].
destruct (supported op) eqn:Hop; simpl; [|intros Hin; inversion Hin].
destruct (is_Mrg op); [|done].
intros [->|Hin]%elem_of_cons; [left|right; by apply IH].
Qed.

Lemma sent_update_steps updates evs s :
tracks op_toString (update_steps updates) evs s →
∀ ev, ev ∈ evs →
  ∃ k diff mongo, (k, diff) ∈ merges updates ∧
    diffToMongo_data op_toString diff = Ok mongo ∧
    fst ev = UpdateOne k (Modify mongo) false.
Proof.
intros Htr ev Hev. destruct (tracks_steps _ _ _ _ _ Htr Hev) as (st & Hst & Hreq).
by apply (update_step_merge op_toString updates st).
Qed.

End BulkMore.

Section BulkExtras.

Context {Coll : Type} `{Backend Coll}.
Variable op_toString : Op → string.
Variable this : Store.

(** X8.  Whatever the batch and the collection, [bulk] sends nothing but
  updates without upsert that carry the command of a merge of the batch,
  the insert of all the items of the batch, and the delete of all its
  keys; it sends neither of the last two for an empty list. *)
Theorem bulk_sends_only patch (w : World Coll) evs :
sent (fst (run (bulk op_toString this patch) w)) = sent w ++ evs →
∀ ev, ev ∈ evs →
  (∃ k diff mongo,
     (k, diff) ∈ merges patch ∧ diffToMongo_data op_toString diff = Ok mongo ∧
     fst ev = UpdateOne k (Modify mongo) false) ∨
  (fst ev = InsertMany (insert_items this patch) ∧ insert_items this patch ≠ []) ∨
  (fst ev = DeleteMany (delete_keys patch) ∧ delete_keys patch ≠ []).
Proof.
rewrite run_bulk. intros Hsent ev Hev.
destruct (first_unsupported patch) as [op|].
- destruct (in_sequence_tracks op_toString (update_steps (classified patch)) w)
    as (evs' & Hsent' & _ & Htr).
  simpl in Hsent. rewrite Hsent in Hsent'. apply app_inv_head in Hsent' as <-.
  destruct (sent_update_steps _ _ _ _ Htr ev Hev) as (k & diff & mongo & Hin & ? & ?).
  left. exists k, diff, mongo. split; [by apply merges_classified|done].
- destruct (in_sequence_tracks op_toString (plan this patch) w)
    as (evs' & Hsent' & _ & Htr).
  assert (sent (fst (in_sequence op_toString (plan this patch) w)) = sent w ++ evs) as Hs.
  { revert Hsent. unfold settle. by destruct (in_sequence _ _ w) as [w1 [a|e]]. }
  rewrite Hs in Hsent'. apply app_inv_head in Hsent' as <-.
  destruct (tracks_steps _ _ _ _ _ Htr Hev) as (st & Hst & Hreq).
  unfold plan in Hst. apply elem_of_app in Hst as [Hst|Hst].
  { left. by apply (update_step_merge op_toString patch st). }
  right. unfold insert_step, delete_step in Hst.
  apply elem_of_app in Hst as [Hst|Hst].
  + left. destruct (insert_items this patch) as [|i0 items0] eqn:Hitems; [inversion Hst|].
    apply list_elem_of_singleton in Hst as ->. by injection Hreq as <-.
  + right. destruct (delete_keys patch) as [|i0 ids0] eqn:Hids; [inversion Hst|].
    apply list_elem_of_singleton in Hst as ->. by injection Hreq as <-.
Qed.

(** X9.  Only the three groups of a batch matter: two batches of merges,
  inserts and deletes with the same merges in the same order, the same
  items and the same keys to delete run alike, however their entries are
  interleaved and whatever keys their inserts stand under. *)
Theorem bulk_depends_on_groups patch patch' (w : World Coll) :
Forall (λ e, supported (snd e) = true) patch →
Forall (λ e, supported (snd e) = true) patch' →
merges patch = merges patch' →
insert_items this patch = insert_items this patch' →
delete_keys patch = delete_keys patch' →
run (bulk op_toString this patch) w = run (bulk op_toString this patch') w.
Proof.
intros [Hf _]%first_unsupported_None [Hf' _]%first_unsupported_None Hm Hi Hd.
rewrite !run_bulk, Hf, Hf'. unfold plan, update_steps, insert_step, delete_step.
by rewrite Hm, Hi, Hd.
Qed.

(** X10.  When the collection refuses the bulk insert, the call is rejected
  with that failure, the insert is the last request and was preceded by
  acknowledged updates only: the bulk delete is not sent and the updates
  stand. *)
Theorem bulk_insert_failure patch (w w' : World Coll) out evs items :
run (bulk op_toString this patch) w = (w', out) →
sent w' = sent w ++ evs →
(InsertMany items, false) ∈ evs →
(∃ reason, out = RejectedWith (BackendFailure reason)) ∧
(∀ ids b, (DeleteMany ids, b) ∉ evs) ∧
∃ committed,
  evs = map (λ r, (r, true)) committed ++ [(InsertMany items, false)] ∧
  Forall (λ r, is_UpdateOne r = true) committed.
Proof.
rewrite run_bulk. intros Hrun Hsent Hin.
destruct (first_unsupported patch) as [op|].
- injection Hrun as <- <-.
  destruct (in_sequence_tracks op_toString (update_steps (classified patch)) w)
    as (evs' & Hsent' & _ & Htr).
  rewrite Hsent in Hsent'. apply app_inv_head in Hsent' as <-.
  destruct (sent_update_steps _ _ _ _ Htr _ Hin) as (k & diff & mongo & _ & _ & Hreq).
  done.
- destruct (in_sequence_tracks op_toString (plan this patch) w)
    as (evs' & Hsent' & _ & Htr).
  destruct (in_sequence op_toString (plan this patch) w) as [w1 s].
  assert (w1 = w') as -> by (by destruct s; injection Hrun as <- <-).
  simpl in Hsent', Htr. rewrite Hsent in Hsent'. apply app_inv_head in Hsent' as <-.
  destruct (tracks_insert_phase _ _ _ _ _ _ _ Htr Hin)
    as (committed & reason & -> & Hall & ->).
  injection Hrun as <-. split_and!; [by exists reason| |by exists committed].
  intros ids b [Hd|Hd]%elem_of_app.
  + apply list_elem_of_fmap in Hd as (r & [= <- ->] & Hr).
    rewrite Forall_forall in Hall. apply Hall in Hr. done.
  + by apply list_elem_of_singleton in Hd.
Qed.

(** X11.  When a merge of the batch does not translate, [bulk] is never
  fulfilled and sends nothing but updates: neither the insert nor the
  delete of the batch is sent. *)
Theorem bulk_untranslatable_merge patch (w w' : World Coll) out evs k diff e :
(k, diff) ∈ merges patch →
diffToMongo_data op_toString diff = Throw e →
run (bulk op_toString this patch) w = (w', out) →
sent w' = sent w ++ evs →
out ≠ Resolved tt ∧ ∀ ev, ev ∈ evs → is_UpdateOne (fst ev) = true.
Proof.
rewrite run_bulk. intros Hin He Hrun Hsent.
destruct (first_unsupported patch) as [op|].
- injection Hrun as <- <-. split; [done|].
  destruct (in_sequence_tracks op_toString (update_steps (classified patch)) w)
    as (evs' & Hsent' & _ & Htr).
  rewrite Hsent in Hsent'. apply app_inv_head in Hsent' as <-.
  intros ev Hev.
  destruct (sent_update_steps _ _ _ _ Htr _ Hev) as (? & ? & ? & _ & _ & ->). done.
- destruct (in_sequence_tracks op_toString (plan this patch) w)
    as (evs' & Hsent' & _ & Htr).
  destruct (in_sequence op_toString (plan this patch) w) as [w1 s].
  assert (w1 = w') as -> by (by destruct s; injection Hrun as <- <-).
  simpl in Hsent', Htr. rewrite Hsent in Hsent'. apply app_inv_head in Hsent' as <-.
  destruct (tracks_stuck _ _ _ _ _ _ _ _ Htr Hin He) as [[e' ->] Hall].
  injection Hrun as <-. done.
Qed.

(** C3, on the batch [nested_patch] of two merges and a delete, the second
    merge holding a nested merge.  Its translation throws, for every
    rendering that names no field of it, so that [bulk] sends the update of
    the first merge and nothing more, neither an update for the second nor
    the delete, and is not fulfilled. *)
Theorem bulk_nested_merge_stops (w : World Coll) :
  get (op_toString (Mrg [("c", Rpl (VNum 1))])) nested_diff = None →
  Forall (λ e, supported (snd e) = true) nested_patch ∧
  snd (run (bulk op_toString this nested_patch) w) ≠ Resolved tt ∧
  ∃ b, sent (fst (run (bulk op_toString this nested_patch) w))
       = sent w ++ [(UpdateOne (VNum 1) (Modify pizza_command) false, b)].
Proof.
  intros Hnone. split; [repeat constructor|].
  assert (Hfirst : diffToMongo_data op_toString (Mrg [("b", Rpl (VStr "pizza"))])
                   = Ok pizza_command) by reflexivity.
  assert (Hsecond : diffToMongo_data op_toString (Mrg nested_diff) = Throw TypeError).
  { unfold diffToMongo_data, diffToMongo. simpl. unfold _diffToMongo.
    rewrite (loop_stuck op_toString _ nested_diff nested_diff _ "a" [("c", Rpl (VNum 1))]);
      [done|right; left|].
    intros n' sub'. unfold nested_diff at 1. rewrite !elem_of_cons, elem_of_nil.
    intros [[=]|[[= -> ->]|[]]]. exact Hnone. }
  assert (Hplan : plan this nested_patch
                  = [StepUpdate (VNum 1) (Mrg [("b", Rpl (VStr "pizza"))]);
                     StepUpdate (VNum 2) (Mrg nested_diff); StepDelete [VNum 3]])
    by reflexivity.
  assert (Hf : first_unsupported nested_patch = None) by reflexivity.
  rewrite run_bulk, Hf, Hplan. cbn [in_sequence step_request]. rewrite Hfirst.
  destruct (serve _ (coll w)) as [c [a|reason]]; cbn [in_sequence step_request];
    rewrite ?Hsecond; simpl; (split; [done|by eexists]).
Qed.

(** X12.  A merge that sets and unsets nothing is not skipped: when the
    merge of a batch of one translates to the command with neither group, as
    the merge without fields does, [bulk] still sends one update with it. *)
Theorem bulk_sends_empty_command k diff (w : World Coll) :
  diffToMongo op_toString diff = Ok {| cmd_set := None; cmd_unset := None |} →
  ∃ b, sent (fst (run (bulk op_toString this [(k, Mrg diff)]) w))
       = sent w ++ [(UpdateOne k (Modify {| cmd_set := None; cmd_unset := None |}) false, b)].
Proof.
  intros Hempty. rewrite run_bulk. simpl. unfold diffToMongo_data. simpl.
  rewrite Hempty.
  destruct (serve _ (coll w)) as [c [a|reason]]; by eexists.
Qed.

End BulkExtras.

(** ** The store on the collection in memory *)



Lemma filter_all {A : Type} (l : list A) : List.filter (λ _, true) l = l.
Proof. induction l as [|a l IH]; simpl; [done|by rewrite IH]. Qed.

(** X14.  On the collection in memory, with an index added for a field:
    [all] resolves to the entities of all the documents in their order,
    [findAll] to those of the documents whose field equals the value, and
    after [removeAll] the documents left are the others. *)
Theorem findAll_removeAll_split (this : Store) (index : Predicate) (field : string)
    (v : Value) (w : World Mem.Coll) :
  maps (indexes this) !! name index = Some (simple_field field) →
  snd (run (all this) w)
  = Resolved (map (λ item, fromJSON this (value (options this) item))
                (Mem.docs (coll w))) ∧
  snd (run (findAll this index v) w)
  = Resolved (map (λ item, fromJSON this (value (options this) item))
                (List.filter (λ doc, value_eqb (prop field doc) v) (Mem.docs (coll w)))) ∧
  snd (run (all this) (fst (run (removeAll this index v) w)))
  = Resolved (map (λ item, fromJSON this (value (options this) item))
                (List.filter (λ doc, negb (value_eqb (prop field doc) v))
                   (Mem.docs (coll w)))).
Proof.
  intros Hreg.
  unfold all, findAll, removeAll, toMongoCriteria. rewrite Hreg.
  unfold run, then_, attempt, call, resolve, simple_field. simpl.
  rewrite !filter_all. split_and!; [done| |].
  - f_equal. f_equal. apply List.filter_ext. intros doc. apply andb_true_r.
  - f_equal. f_equal. apply List.filter_ext. intros doc. by rewrite andb_true_r.
Qed.

(** ** The further statements on the store of the test suite *)

Lemma diffToMongo_fields_witness :
  diffToMongo object_toString inserted_diff = Ok inserted_command ∧
  NoDup (map fst inserted_diff) ∧
  (∀ n d, n ≠ "__proto__" →
     (∃ op, (n, op) ∈ inserted_diff ∧ set_data op = Some d)
     ↔ default ∅ (cmd_set inserted_command) !! n = Some d) ∧
  (∀ n, n ≠ "__proto__" →
     (n, DEL) ∈ inserted_diff
     ↔ default ∅ (cmd_unset inserted_command) !! n = Some (VStr EmptyString)) ∧
  (∀ n v, default ∅ (cmd_unset inserted_command) !! n = Some v → v = VStr EmptyString) ∧
  default ∅ (cmd_set inserted_command) !! "__proto__" = None ∧
  default ∅ (cmd_unset inserted_command) !! "__proto__" = None.
Proof.
  assert (Hcmd : diffToMongo object_toString inserted_diff = Ok inserted_command)
    by (vm_compute; reflexivity).
  assert (Hnd : NoDup (map fst inserted_diff))
    by (apply (bool_decide_unpack (NoDup (map fst inserted_diff))); vm_compute; exact I).
  split; [exact Hcmd|]. split; [exact Hnd|].
  exact (diffToMongo_fields object_toString inserted_diff inserted_command Hcmd Hnd).
Defined.

Lemma diffToMongo_flat_witness :
  (∀ n op, (n, op) ∈ mixed_diff → is_Mrg op = false) ∧
  ∃ cmd, diffToMongo object_toString mixed_diff = Ok cmd ∧
    ∀ op_toString', diffToMongo op_toString' mixed_diff = Ok cmd.
Proof.
  assert (Hflat : ∀ n op, (n, op) ∈ mixed_diff → is_Mrg op = false).
  { intros n op. unfold mixed_diff. rewrite !elem_of_cons, elem_of_nil.
    intros [[= -> ->]|[[= -> ->]|[]]]; reflexivity. }
  split; [exact Hflat|].
  exact (diffToMongo_flat object_toString mixed_diff Hflat).
Defined.

Lemma diffToMongo_nested_throws_witness :
  ("a", Mrg [("c", Rpl (VNum 1))]) ∈ nested_diff ∧
  (∀ n' sub', (n', Mrg sub') ∈ nested_diff →
     get (object_toString (Mrg sub')) nested_diff = None) ∧
  diffToMongo object_toString nested_diff = Throw TypeError.
Proof.
  assert (Hin : ("a", Mrg [("c", Rpl (VNum 1))]) ∈ nested_diff) by (right; left).
  assert (Hnone : ∀ n' sub', (n', Mrg sub') ∈ nested_diff →
            get (object_toString (Mrg sub')) nested_diff = None)
    by (intros; reflexivity).
  split; [exact Hin|]. split; [exact Hnone|].
  exact (diffToMongo_nested_throws object_toString nested_diff _ _ Hin Hnone).
Defined.

Lemma addSimpleField_by_name_witness :
  (name {| name := "byA" |} = name byA ∧
   toMongoCriteria
     (receiver (addSimpleField {| name := "byA" |} "b"
                  (receiver (addSimpleField byA "a" new_IndexMap))))
     byA (VStr "hello")
   = Ok (VObj [("b", VStr "hello")])) ∧
  (name byB ≠ name byA ∧
   receiver (addSimpleField byB "b" (receiver (addSimpleField byA "a" new_IndexMap)))
   = receiver (addSimpleField byA "a" (receiver (addSimpleField byB "b" new_IndexMap)))).
Proof.
  assert (Heq : name {| name := "byA" |} = name byA) by reflexivity.
  assert (Hne : name byB ≠ name byA) by discriminate.
  split; split; [exact Heq| |exact Hne|].
  - exact (proj1 (addSimpleField_by_name new_IndexMap byA {| name := "byA" |} "a" "b")
             Heq (VStr "hello")).
  - exact (proj2 (addSimpleField_by_name new_IndexMap byA byB "a" "b") Hne).
Defined.


Lemma registered_index_requests_witness :
  maps (indexes test_store) !! name byA = Some (simple_field "a") ∧
  (∃ b, sent (fst (run (findAll test_store byA (VStr "hello")) three_entities))
        = sent three_entities ++ [(Find (VObj [("a", VStr "hello")]), b)]) ∧
  (∃ b, sent (fst (run (removeAll test_store byA (VStr "hello")) three_entities))
        = sent three_entities ++ [(Remove (VObj [("a", VStr "hello")]), b)]).
Proof.
  assert (Hreg : maps (indexes test_store) !! name byA = Some (simple_field "a"))
    by (vm_compute; reflexivity).
  split; [exact Hreg|].
  exact (registered_index_requests test_store byA "a" (VStr "hello") three_entities Hreg).
Defined.

Lemma bulk_sends_only_witness :
  sent (fst (run (bulk object_toString test_store sync_patch) three_entities))
  = sent three_entities ++ sync_events ∧
  ∀ ev, ev ∈ sync_events →
    (∃ k diff mongo,
       (k, diff) ∈ merges sync_patch ∧ diffToMongo_data object_toString diff = Ok mongo ∧
       fst ev = UpdateOne k (Modify mongo) false) ∨
    (fst ev = InsertMany (insert_items test_store sync_patch)
     ∧ insert_items test_store sync_patch ≠ []) ∨
    (fst ev = DeleteMany (delete_keys sync_patch) ∧ delete_keys sync_patch ≠ []).
Proof.
  assert (Hsent : sent (fst (run (bulk object_toString test_store sync_patch)
                               three_entities))
                  = sent three_entities ++ sync_events)
    by (vm_compute; reflexivity).
  split; [exact Hsent|].
  exact (bulk_sends_only object_toString test_store sync_patch three_entities
           sync_events Hsent).
Defined.

Lemma bulk_depends_on_groups_witness :
  Forall (λ e, supported (snd e) = true) delete_first_patch ∧
  Forall (λ e, supported (snd e) = true) delete_last_patch ∧
  merges delete_first_patch = merges delete_last_patch ∧
  insert_items test_store delete_first_patch = insert_items test_store delete_last_patch ∧
  delete_keys delete_first_patch = delete_keys delete_last_patch ∧
  run (bulk object_toString test_store delete_first_patch) three_entities
  = run (bulk object_toString test_store delete_last_patch) three_entities.
Proof.
  assert (H1 : Forall (λ e, supported (snd e) = true) delete_first_patch)
    by (repeat constructor).
  assert (H2 : Forall (λ e, supported (snd e) = true) delete_last_patch)
    by (repeat constructor).
  assert (H3 : merges delete_first_patch = merges delete_last_patch) by reflexivity.
  assert (H4 : insert_items test_store delete_first_patch
               = insert_items test_store delete_last_patch) by reflexivity.
  assert (H5 : delete_keys delete_first_patch = delete_keys delete_last_patch)
    by reflexivity.
  split_and!; [exact H1|exact H2|exact H3|exact H4|exact H5|].
  exact (bulk_depends_on_groups object_toString test_store delete_first_patch
           delete_last_patch three_entities H1 H2 H3 H4 H5).
Defined.

Lemma bulk_insert_failure_witness :
  run (bulk object_toString plain_store duplicate_patch) three_entities
  = (fst (run (bulk object_toString plain_store duplicate_patch) three_entities),
     RejectedWith (BackendFailure "duplicate key")) ∧
  sent (fst (run (bulk object_toString plain_store duplicate_patch) three_entities))
  = sent three_entities ++ duplicate_events ∧
  (InsertMany [VObj [("_id", VNum 1); ("a", VStr "twice")]], false) ∈ duplicate_events ∧
  (∃ reason, RejectedWith (BackendFailure "duplicate key")
             = RejectedWith (A := unit) (BackendFailure reason)) ∧
  (∀ ids b, (DeleteMany ids, b) ∉ duplicate_events) ∧
  ∃ committed,
    duplicate_events
    = map (λ r, (r, true)) committed
      ++ [(InsertMany [VObj [("_id", VNum 1); ("a", VStr "twice")]], false)] ∧
    Forall (λ r, is_UpdateOne r = true) committed.
Proof.
  assert (Hrun : run (bulk object_toString plain_store duplicate_patch) three_entities
                 = (fst (run (bulk object_toString plain_store duplicate_patch)
                           three_entities),
                    RejectedWith (BackendFailure "duplicate key")))
    by (vm_compute; reflexivity).
  assert (Hsent : sent (fst (run (bulk object_toString plain_store duplicate_patch)
                               three_entities))
                  = sent three_entities ++ duplicate_events)
    by (vm_compute; reflexivity).
  assert (Hin : (InsertMany [VObj [("_id", VNum 1); ("a", VStr "twice")]], false)
                ∈ duplicate_events)
    by (right; left).
  split; [exact Hrun|]. split; [exact Hsent|]. split; [exact Hin|].
  exact (bulk_insert_failure object_toString plain_store duplicate_patch three_entities
           _ _ duplicate_events _ Hrun Hsent Hin).
Defined.

Lemma bulk_untranslatable_merge_witness :
  (VNum 2, Mrg nested_diff) ∈ merges nested_patch ∧
  diffToMongo_data object_toString (Mrg nested_diff) = Throw TypeError ∧
  run (bulk object_toString test_store nested_patch) three_entities
  = (fst (run (bulk object_toString test_store nested_patch) three_entities),
     RejectedWith TypeError) ∧
  sent (fst (run (bulk object_toString test_store nested_patch) three_entities))
  = sent three_entities ++ [(UpdateOne (VNum 1) (Modify pizza_command) false, true)] ∧
  RejectedWith TypeError ≠ Resolved tt ∧
  ∀ ev, ev ∈ [(UpdateOne (VNum 1) (Modify pizza_command) false, true)] →
        is_UpdateOne (fst ev) = true.
Proof.
  assert (Hin : (VNum 2, Mrg nested_diff) ∈ merges nested_patch) by (right; left).
  assert (He : diffToMongo_data object_toString (Mrg nested_diff) = Throw TypeError)
    by (vm_compute; reflexivity).
  assert (Hrun : run (bulk object_toString test_store nested_patch) three_entities
                 = (fst (run (bulk object_toString test_store nested_patch)
                           three_entities),
                    RejectedWith TypeError))
    by (vm_compute; reflexivity).
  assert (Hsent : sent (fst (run (bulk object_toString test_store nested_patch)
                               three_entities))
                  = sent three_entities
                    ++ [(UpdateOne (VNum 1) (Modify pizza_command) false, true)])
    by (vm_compute; reflexivity).
  split; [exact Hin|]. split; [exact He|]. split; [exact Hrun|]. split; [exact Hsent|].
  exact (bulk_untranslatable_merge object_toString test_store nested_patch three_entities
           _ _ _ _ _ _ Hin He Hrun Hsent).
Defined.

Lemma bulk_sends_empty_command_witness :
  diffToMongo object_toString [] = Ok {| cmd_set := None; cmd_unset := None |} ∧
  ∃ b, sent (fst (run (bulk object_toString test_store [(VNum 1, Mrg [])]) three_entities))
       = sent three_entities
         ++ [(UpdateOne (VNum 1) (Modify {| cmd_set := None; cmd_unset := None |}) false, b)].
Proof.
  split; [reflexivity|].
  exact (bulk_sends_empty_command object_toString test_store (VNum 1) [] three_entities
           eq_refl).
Defined.


Lemma findAll_removeAll_split_witness :
  maps (indexes test_store) !! name byA = Some (simple_field "a") ∧
  snd (run (findAll test_store byA (VStr "hello")) three_entities)
  = Resolved (map (λ item, fromJSON test_store (value (options test_store) item))
                (List.filter (λ doc, value_eqb (prop "a" doc) (VStr "hello"))
                   (Mem.docs (coll three_entities)))).
Proof.
  assert (Hreg : maps (indexes test_store) !! name byA = Some (simple_field "a"))
    by (vm_compute; reflexivity).
  split; [exact Hreg|].
  exact (proj1 (proj2 (findAll_removeAll_split test_store byA "a" (VStr "hello")
                         three_entities Hreg))).
Defined.

Lemma bulk_nested_merge_stops_witness :
  get (object_toString (Mrg [("c", Rpl (VNum 1))])) nested_diff = None ∧
  Forall (λ e, supported (snd e) = true) nested_patch ∧
  snd (run (bulk object_toString test_store nested_patch) three_entities) ≠ Resolved tt ∧
  ∃ b, sent (fst (run (bulk object_toString test_store nested_patch) three_entities))
       = sent three_entities ++ [(UpdateOne (VNum 1) (Modify pizza_command) false, b)].
Proof.
  split; [reflexivity|].
  exact (bulk_nested_merge_stops object_toString test_store three_entities eq_refl).
Defined.
